(** * Value marshalling of playwright/js_handle.py

    A shallow embedding of [serialize_value], [serialize_argument],
    [parse_value] and [parse_result], and the properties of the wire format
    proved about them. *)

From Stdlib Require Import ZArith List String Ascii Bool Lia.
From Stdlib Require Import Floats.SpecFloat.
Import ListNotations.
#[local] Set Warnings "-register-all".
Open Scope string_scope.
Open Scope Z_scope.

(** ** Python values *)

Module Py.

(** The exceptions the two functions can end in: [Error] is
    [playwright.helper.Error]; the other two are the builtins raised by
    subscripting, iterating and [datetime.fromisoformat]. *)
Inductive exn : Type :=
| Error (msg : string)
| TypeError
| ValueError.

Inductive outcome (A : Type) : Type :=
| Return (a : A)
| Raise (e : exn).
Arguments Return {A} a.
Arguments Raise {A} e.

(** A [Channel] is the object behind [JSHandle._channel]; there is one per
    remote object, identified by its guid. *)
Record Channel : Type := mkChannel { guid : string }.

Record JSHandle : Type := mkJSHandle { _channel : Channel; _preview : string }.

(** [datetime.datetime]: the calendar fields and [utcoffset()], [None] for a
    naive value, otherwise the offset from UTC in microseconds. *)
Record datetime : Type := mkDatetime {
  year : Z; month : Z; day : Z;
  hour : Z; minute : Z; second : Z; microsecond : Z;
  utcoffset : option Z
}.

(** [Any].  A [dict] is kept as its items in insertion order; [PObject]
    stands for an instance of a class neither function knows (it is not
    iterable and not subscriptable), told apart by identity. *)
Inductive pyval : Type :=
| PNone
| PBool (b : bool)
| PInt (z : Z)
| PFloat (f : spec_float)
| PStr (s : string)
| PDatetime (d : datetime)
| PList (l : list pyval)
| PDict (items : list (string * pyval))
| PHandle (h : JSHandle)
| PObject (id : nat).

Definition items : Type := list (string * pyval).

(** *** Dictionaries *)

(** [d[name]], [None] when [name not in d]. *)
Fixpoint dict_get (d : items) (name : string) : option pyval :=
  match d with
  | [] => None
  | (k, x) :: r => if String.eqb k name then Some x else dict_get r name
  end.

(** [name in d] *)
Definition dict_in (name : string) (d : items) : bool :=
  match dict_get d name with Some _ => true | None => false end.

(** [d[name] = x]: an existing key keeps its place, a new one goes last. *)
Fixpoint dict_set (d : items) (name : string) (x : pyval) : items :=
  match d with
  | [] => [(name, x)]
  | (k, y) :: r =>
      if String.eqb k name then (k, x) :: r else (k, y) :: dict_set r name x
  end.

Definition keys (d : items) : list string := map fst d.

(** [dict(k=x)] *)
Definition dict1 (k : string) (x : pyval) : pyval := PDict [(k, x)].

Section Lookup.
Context {B : Type} (f : pyval -> B).

(** [f(d[name])] when [name in d]; the function is applied under the
    lookup so that it may be the enclosing recursive function. *)
Fixpoint dict_get_with (d : items) (name : string) : option B :=
  match d with
  | [] => None
  | (k, x) :: r =>
      if String.eqb k name then Some (f x) else dict_get_with r name
  end.
End Lookup.

(** *** Floats *)

Definition inf : spec_float := S754_infinity false.
Definition neg_inf : spec_float := S754_infinity true.
Definition neg_zero : spec_float := S754_zero true.
Definition pos_zero : spec_float := S754_zero false.
Definition nan : spec_float := S754_nan.

(** [x == y] on floats: IEEE comparison, so NaN equals nothing and the two
    zeros are equal. *)
Definition float_eq (x y : spec_float) : bool := SFeqb x y.

(** [math.isnan] *)
Definition isnan (x : spec_float) : bool :=
  match x with S754_nan => true | _ => false end.

Definition isfinite (x : spec_float) : bool :=
  match x with S754_zero _ | S754_finite _ _ _ => true | _ => false end.

(** *** Strings *)

(** [s[:n]] and [s[n:]] for [n >= 0] *)
Fixpoint take (n : nat) (s : string) : string :=
  match n, s with
  | S k, String c r => String c (take k r)
  | _, _ => ""
  end.

Fixpoint drop (n : nat) (s : string) : string :=
  match n, s with
  | S k, String _ r => drop k r
  | _, _ => s
  end.

(** [s[a:b]] for [0 <= a <= b] *)
Definition slice (a b : nat) (s : string) : string := take (b - a) (drop a s).

(** [s[:-1]] *)
Definition drop_last (s : string) : string := take (String.length s - 1) s.

(** [s.find(c)], [-1] when [c] does not occur. *)
Fixpoint find (c : ascii) (s : string) : Z :=
  match s with
  | "" => -1
  | String a r =>
      if Ascii.eqb a c then 0
      else let i := find c r in if i <? 0 then -1 else i + 1
  end.

(** The characters of [s], as iterating a [str] yields them. *)
Fixpoint chars (s : string) : list string :=
  match s with
  | "" => []
  | String c r => String c "" :: chars r
  end.

(** *** Equality *)

(** Numbers compare across [bool], [int] and [float] by value. *)
Inductive num : Type := NInt (z : Z) | NFloat (f : spec_float).

Definition as_num (v : pyval) : option num :=
  match v with
  | PBool b => Some (NInt (if b then 1 else 0))
  | PInt z => Some (NInt z)
  | PFloat f => Some (NFloat f)
  | _ => None
  end.

(** An [int] against a [float], exactly: the float is
    [(-1)^s * m * 2^e]. *)
Definition int_float_eq (z : Z) (f : spec_float) : bool :=
  match f with
  | S754_zero _ => Z.eqb z 0
  | S754_finite s m e =>
      let sm := if s then Z.neg m else Z.pos m in
      if 0 <=? e then Z.eqb z (sm * 2 ^ e) else Z.eqb (z * 2 ^ (- e)) sm
  | _ => false
  end.

Definition num_eq (x y : num) : bool :=
  match x, y with
  | NInt a, NInt b => Z.eqb a b
  | NFloat a, NFloat b => float_eq a b
  | NInt a, NFloat b => int_float_eq a b
  | NFloat a, NInt b => int_float_eq b a
  end.

(** *** [datetime] *)

(** The pieces of CPython's [datetime] module the two functions call,
    after Lib/datetime.py: [isoformat()] and [fromisoformat()], and the
    comparison behind [==]. *)

Definition digit (n : Z) : ascii := ascii_of_nat (48 + Z.to_nat n).

(** ["%0wd" % n] for [0 <= n < 10^w] *)
Fixpoint digits (w : nat) (n : Z) : string :=
  match w with
  | O => ""
  | S k => digits k (n / 10) ++ String (digit (n mod 10)) ""
  end.

Definition format_time (hh mm ss us : Z) : string :=
  digits 2 hh ++ ":" ++ digits 2 mm ++ ":" ++ digits 2 ss
  ++ (if us =? 0 then "" else "." ++ digits 6 us).

Definition format_offset (off : option Z) : string :=
  match off with
  | None => ""
  | Some o =>
      let sign := if o <? 0 then "-" else "+" in
      let a := Z.abs o in
      let hh := a / 3600000000 in
      let mm := (a mod 3600000000) / 60000000 in
      let ss := (a mod 3600000000) mod 60000000 in
      sign ++ digits 2 hh ++ ":" ++ digits 2 mm
      ++ (if ss =? 0 then ""
          else ":" ++ digits 2 (ss / 1000000)
               ++ (if ss mod 1000000 =? 0 then ""
                   else "." ++ digits 6 (ss mod 1000000)))
  end.

(** [d.isoformat()] *)
Definition isoformat (d : datetime) : string :=
  digits 4 (year d) ++ "-" ++ digits 2 (month d) ++ "-" ++ digits 2 (day d)
  ++ "T" ++ format_time (hour d) (minute d) (second d) (microsecond d)
  ++ format_offset (utcoffset d).

Definition digit_val (c : ascii) : option Z :=
  let n := Z.of_nat (nat_of_ascii c) in
  if (48 <=? n) && (n <=? 57) then Some (n - 48) else None.

Fixpoint int_acc (s : string) (acc : Z) : option Z :=
  match s with
  | "" => Some acc
  | String c r =>
      match digit_val c with
      | Some v => int_acc r (10 * acc + v)
      | None => None
      end
  end.

(** [int(s)] for a string of decimal digits; [None] is [ValueError]. *)
Definition int_of (s : string) : option Z :=
  match s with "" => None | _ => int_acc s 0 end.

Definition is_leap (y : Z) : bool :=
  (y mod 4 =? 0) && (negb (y mod 100 =? 0) || (y mod 400 =? 0)).

Definition days_in_month (y m : Z) : Z :=
  if m =? 2 then (if is_leap y then 29 else 28)
  else if (m =? 4) || (m =? 6) || (m =? 9) || (m =? 11) then 30
  else 31.

(** What the constructor accepts. *)
Definition valid_datetime (d : datetime) : bool :=
  (1 <=? year d) && (year d <=? 9999)
  && (1 <=? month d) && (month d <=? 12)
  && (1 <=? day d) && (day d <=? days_in_month (year d) (month d))
  && (0 <=? hour d) && (hour d <=? 23)
  && (0 <=? minute d) && (minute d <=? 59)
  && (0 <=? second d) && (second d <=? 59)
  && (0 <=? microsecond d) && (microsecond d <=? 999999)
  && match utcoffset d with
     | None => true
     | Some o => (-86400000000 <? o) && (o <? 86400000000)
     end.

(** [_parse_isoformat_date] *)
Definition parse_isoformat_date (dtstr : string) : option (Z * Z * Z) :=
  match int_of (slice 0 4 dtstr), String.get 4 dtstr,
        int_of (slice 5 7 dtstr), String.get 7 dtstr,
        int_of (slice 8 10 dtstr) with
  | Some y, Some c1, Some m, Some c2, Some d =>
      if Ascii.eqb c1 "-" && Ascii.eqb c2 "-" then Some (y, m, d) else None
  | _, _, _, _, _ => None
  end.

(** The loop of [_parse_hh_mm_ss_ff] over [HH[:MM[:SS]]], with [n] the
    components still allowed; it yields the components read and the text
    after them. *)
Fixpoint parse_hh_mm_ss (n : nat) (tstr : string) : option (list Z * string) :=
  match n with
  | O => Some ([], tstr)
  | S k =>
      if (String.length tstr <? 2)%nat then None
      else
        match int_of (take 2 tstr) with
        | None => None
        | Some x =>
            match drop 2 tstr, k with
            | "", _ => Some ([x], "")
            | rest, O => Some ([x], rest)
            | String c rest, _ =>
                if Ascii.eqb c ":" then
                  match parse_hh_mm_ss k rest with
                  | Some (xs, after) => Some (x :: xs, after)
                  | None => None
                  end
                else None
            end
        end
  end.

(** [_parse_hh_mm_ss_ff] *)
Definition parse_hh_mm_ss_ff (tstr : string) : option (Z * Z * Z * Z) :=
  match parse_hh_mm_ss 3 tstr with
  | None => None
  | Some (comps, after) =>
      let hh := nth 0 comps 0 in
      let mm := nth 1 comps 0 in
      let ss := nth 2 comps 0 in
      match after with
      | "" => Some (hh, mm, ss, 0)
      | String c frac =>
          if Ascii.eqb c "." then
            match String.length frac, int_of frac with
            | 3%nat, Some us => Some (hh, mm, ss, us * 1000)
            | 6%nat, Some us => Some (hh, mm, ss, us)
            | _, _ => None
            end
          else None
      end
  end.

(** [_parse_isoformat_time]: the time of day and the [tzinfo]. *)
Definition parse_isoformat_time (tstr : string)
  : option (Z * Z * Z * Z * option Z) :=
  if (String.length tstr <? 2)%nat then None
  else
    let tz_pos :=
      if find "-" tstr + 1 =? 0 then find "+" tstr + 1 else find "-" tstr + 1 in
    let timestr :=
      if 0 <? tz_pos then take (Z.to_nat (tz_pos - 1)) tstr else tstr in
    match parse_hh_mm_ss_ff timestr with
    | None => None
    | Some (hh, mm, ss, us) =>
        if 0 <? tz_pos then
          let tzstr := drop (Z.to_nat tz_pos) tstr in
          let n := String.length tzstr in
          if ((n =? 5) || (n =? 8) || (n =? 15))%nat then
            match parse_hh_mm_ss_ff tzstr with
            | None => None
            | Some (th, tm, ts, tu) =>
                if (th =? 0) && (tm =? 0) && (ts =? 0) && (tu =? 0)
                then Some (hh, mm, ss, us, Some 0)
                else
                  let tzsign :=
                    match String.get (Z.to_nat (tz_pos - 1)) tstr with
                    | Some c => if Ascii.eqb c "-" then -1 else 1
                    | None => 1
                    end in
                  let td :=
                    ((th * 60 + tm) * 60 + ts) * 1000000 + tu in
                  Some (hh, mm, ss, us, Some (tzsign * td))
            end
          else None
        else Some (hh, mm, ss, us, None)
    end.

(** [datetime.fromisoformat(date_string)]; every failure is a
    [ValueError]. *)
Definition fromisoformat (date_string : string) : outcome datetime :=
  let dstr := slice 0 10 date_string in
  let tstr := drop 11 date_string in
  match parse_isoformat_date dstr with
  | None => Raise ValueError
  | Some (y, m, d) =>
      let time_components :=
        match tstr with
        | "" => Some (0, 0, 0, 0, None)
        | _ => parse_isoformat_time tstr
        end in
      match time_components with
      | None => Raise ValueError
      | Some (hh, mm, ss, us, tz) =>
          let r := mkDatetime y m d hh mm ss us tz in
          if valid_datetime r then Return r else Raise ValueError
      end
  end.

(** [_ymd2ord]: the day number, 0001-01-01 being day 1. *)
Definition days_before_year (y : Z) : Z :=
  let p := y - 1 in p * 365 + p / 4 - p / 100 + p / 400.

Definition days_before_month (y m : Z) : Z :=
  nth (Z.to_nat (m - 1)) [0; 31; 59; 90; 120; 151; 181; 212; 243; 273; 304; 334] 0
  + (if (2 <? m) && is_leap y then 1 else 0).

Definition ymd2ord (y m d : Z) : Z :=
  days_before_year y + days_before_month y m + d.

(** The instant of an aware [datetime], in microseconds of UTC. *)
Definition instant (d : datetime) : Z :=
  (((ymd2ord (year d) (month d) (day d) * 24 + hour d) * 60 + minute d) * 60
   + second d) * 1000000 + microsecond d
  - match utcoffset d with Some o => o | None => 0 end.

Definition option_Z_eqb (a b : option Z) : bool :=
  match a, b with
  | None, None => true
  | Some x, Some y => Z.eqb x y
  | _, _ => false
  end.

(** [a == b] on [datetime]: the fields when the offsets agree, never equal
    when only one is naive, otherwise the instants. *)
Definition datetime_eq (a b : datetime) : bool :=
  if option_Z_eqb (utcoffset a) (utcoffset b) then
    (year a =? year b) && (month a =? month b) && (day a =? day b)
    && (hour a =? hour b) && (minute a =? minute b) && (second a =? second b)
    && (microsecond a =? microsecond b)
  else
    match utcoffset a, utcoffset b with
    | Some _, Some _ => instant a =? instant b
    | _, _ => false
    end.

(** *** [==] on values *)

Definition channel_eqb (a b : Channel) : bool := String.eqb (guid a) (guid b).

Section ListEq.
Context (eq : pyval -> pyval -> bool).

Fixpoint list_eq (a b : list pyval) : bool :=
  match a, b with
  | [], [] => true
  | x :: r, y :: s => eq x y && list_eq r s
  | _, _ => false
  end.

(** Every item of [a] has an equal value under the same key of [b]. *)
Fixpoint items_le (a : items) (b : items) : bool :=
  match a with
  | [] => true
  | (k, x) :: r =>
      match dict_get b k with
      | Some y => eq x y && items_le r b
      | None => false
      end
  end.
End ListEq.

(** [a == b] *)
Fixpoint py_eq (a b : pyval) {struct a} : bool :=
  match as_num a, as_num b with
  | Some x, Some y => num_eq x y
  | None, None =>
      match a, b with
      | PNone, PNone => true
      | PStr s, PStr t => String.eqb s t
      | PDatetime d, PDatetime e => datetime_eq d e
      | PList l, PList m => list_eq py_eq l m
      | PDict d, PDict e =>
          (List.length d =? List.length e)%nat && items_le py_eq d e
      | PHandle h, PHandle j => channel_eqb (_channel h) (_channel j)
      | PObject i, PObject j => Nat.eqb i j
      | _, _ => false
      end
  | _, _ => false
  end.

End Py.

(** ** playwright/js_handle.py *)

Module JsHandle.
Import Py.

(** *** Effects

    [serialize_value] appends to the caller's [handles] list and may raise;
    what it appended before raising stays in the list.  A computation takes
    the list and gives back its outcome and the list as it left it. *)

Definition M (A : Type) : Type := list Channel -> outcome A * list Channel.

Definition ret {A} (a : A) : M A := fun handles => (Return a, handles).

Definition raise {A} (e : exn) : M A := fun handles => (Raise e, handles).

Definition bind {A B} (m : M A) (k : A -> M B) : M B :=
  fun handles =>
    match m handles with
    | (Return a, handles') => k a handles'
    | (Raise e, handles') => (Raise e, handles')
    end.

(** [parse_value] only raises. *)
Definition bind_outcome {A B} (m : outcome A) (k : A -> outcome B) : outcome B :=
  match m with
  | Return a => k a
  | Raise e => Raise e
  end.

Declare Scope py_scope.
Delimit Scope py_scope with py.
Notation "x <- m ;; k" := (bind m (fun x => k))
  (at level 61, m at next level, right associativity) : py_scope.
Notation "x <~ m ;; k" := (bind_outcome m (fun x => k))
  (at level 61, m at next level, right associativity) : py_scope.
Open Scope py_scope.

Section Loops.
Context (f : pyval -> M pyval).

(** [list(map(f, l))], left to right. *)
Fixpoint map_list (l : list pyval) : M (list pyval) :=
  match l with
  | [] => ret []
  | a :: r => w <- f a ;; ws <- map_list r ;; ret (w :: ws)
  end.

(** [for name in value: result[name] = f(value[name])] *)
Fixpoint for_items (value : items) (result : items) : M items :=
  match value with
  | [] => ret result
  | (name, x) :: r => w <- f x ;; for_items r (dict_set result name w)
  end.
End Loops.

Section PureLoops.
Context (f : pyval -> outcome pyval).

Fixpoint map_list_outcome (l : list pyval) : outcome (list pyval) :=
  match l with
  | [] => Return []
  | a :: r =>
      w <~ f a ;; ws <~ map_list_outcome r ;; Return (w :: ws)
  end.

Fixpoint for_items_outcome (o : items) (result : items) : outcome items :=
  match o with
  | [] => Return result
  | (name, x) :: r =>
      w <~ f x ;; for_items_outcome r (dict_set result name w)
  end.
End PureLoops.

Definition is_primitive_value (value : pyval) : bool :=
  match value with
  | PBool _ | PInt _ | PFloat _ | PStr _ => true
  | _ => false
  end.

(** [serialize_value(value, handles, depth)].  The result pairs what the
    call returned or raised with [handles] as the call left it.  The tests
    of the source are on the type of [value], so they are read as one
    match; the order that matters is kept: the handle first, then the depth,
    then the rest.  [bool], [int], [str] and the floats without a sentinel
    are the values [is_primitive_value] lets through.  The interpreter's
    own recursion limit is not part of the model: called at a depth that is
    not negative the ceiling ends the recursion long before it. *)
Fixpoint serialize_value (value : pyval) (handles : list Channel) (depth : Z)
  {struct value} : outcome pyval * list Channel :=
  match value with
  | PHandle j =>
      let h := Z.of_nat (List.length handles) in
      (Return (dict1 "h" (PInt h)), (handles ++ [_channel j])%list)
  | _ =>
      if 100 <? depth then
        raise (Error "Maximum argument depth exceeded") handles
      else
        match value with
        | PNone => ret (dict1 "v" (PStr "undefined")) handles
        | PFloat f =>
            if float_eq f inf then ret (dict1 "v" (PStr "Infinity")) handles
            else if float_eq f neg_inf then
              ret (dict1 "v" (PStr "-Infinity")) handles
            else if float_eq f neg_zero then ret (dict1 "v" (PStr "-0")) handles
            else if float_eq f neg_zero then ret (dict1 "v" (PStr "-0")) handles
            else if isnan f then ret (dict1 "v" (PStr "NaN")) handles
            else ret value handles
        | PDatetime d => ret (dict1 "d" (PStr (isoformat d ++ "Z"))) handles
        | PBool _ | PInt _ | PStr _ => ret value handles
        | PList l =>
            (result <- map_list (fun a hs => serialize_value a hs (depth + 1)) l ;;
             ret (dict1 "a" (PList result))) handles
        | PDict d =>
            (result <- for_items (fun x hs => serialize_value x hs (depth + 1)) d [] ;;
             ret (dict1 "o" (PDict result))) handles
        | PHandle _ | PObject _ => ret (dict1 "v" (PStr "undefined")) handles
        end
  end.

(** The envelope [dict(value=value, handles=handles)]. *)
Record argument : Type := mkArgument { value : pyval; handles : list Channel }.

Definition serialize_argument (arg : pyval) : outcome argument :=
  match serialize_value arg [] 0 with
  | (Return v, hs) => Return (mkArgument v hs)
  | (Raise e, _) => Raise e
  end.

(** [parse_value(value)].  The keys are tried in the order v, a, d, o.
    Under [a] the payload is iterated: a list gives its elements, a [str]
    its characters and a dict its keys, which [parse_value] returns as they
    are; anything else is not iterable.  Under [d] only a [str] can be
    sliced and parsed.  Under [o] the loop indexes the payload by what
    iterating it yields: a dict gives its items, an empty list or [str]
    gives no iteration at all, and the other payloads are taken to raise
    [TypeError], as indexing does on them but for a list indexed by its own
    small integers. *)
Fixpoint parse_value (value : pyval) : outcome pyval :=
  match value with
  | PNone => Return PNone
  | PDict d =>
      match dict_get d "v" with
      | Some v =>
          if py_eq v (PStr "Infinity") then Return (PFloat inf)
          else if py_eq v (PStr "-Infinity") then Return (PFloat neg_inf)
          else if py_eq v (PStr "-0") then Return (PFloat neg_zero)
          else if py_eq v (PStr "NaN") then Return (PFloat nan)
          else if py_eq v (PStr "undefined") then Return PNone
          else if py_eq v (PStr "null") then Return PNone
          else Return v
      | None =>
      match
        dict_get_with
          (fun a =>
             match a with
             | PList l =>
                 r <~ map_list_outcome parse_value l ;; Return (PList r)
             | PStr s => Return (PList (map PStr (chars s)))
             | PDict e => Return (PList (map PStr (keys e)))
             | _ => Raise TypeError
             end) d "a"
      with
      | Some r => r
      | None =>
      match dict_get d "d" with
      | Some (PStr s) =>
          dt <~ fromisoformat (drop_last s) ;; Return (PDatetime dt)
      | Some _ => Raise TypeError
      | None =>
      match
        dict_get_with
          (fun o =>
             match o with
             | PDict e =>
                 r <~ for_items_outcome parse_value e [] ;; Return (PDict r)
             | PList [] | PStr "" => Return (PDict [])
             | _ => Raise TypeError
             end) d "o"
      with
      | Some r => r
      | None => Return value
      end end end end
  | _ => Return value
  end.

Definition parse_result (result : pyval) : outcome pyval := parse_value result.

End JsHandle.

(** ** Vocabulary of the properties *)

Module Shape.
Import Py JsHandle.

Definition depth_error : exn := Error "Maximum argument depth exceeded".

Definition is_handle (v : pyval) : bool :=
  match v with PHandle _ => true | _ => false end.

Definition is_container (v : pyval) : bool :=
  match v with PList _ | PDict _ => true | _ => false end.

(** The keys of a [dict] are pairwise distinct. *)
Fixpoint distinct (ks : list string) : bool :=
  match ks with
  | [] => true
  | k :: r => negb (existsb (String.eqb k) r) && distinct r
  end.

(** A value Python can hold: every [dict] in it has distinct keys. *)
Fixpoint well_formed (v : pyval) : bool :=
  match v with
  | PList l => forallb well_formed l
  | PDict d => distinct (keys d) && forallb (fun p => well_formed (snd p)) d
  | _ => true
  end.

(** Values made of booleans, finite numbers, strings, lists and dicts. *)
Fixpoint plain (v : pyval) : bool :=
  match v with
  | PBool _ | PInt _ | PStr _ => true
  | PFloat f => isfinite f
  | PList l => forallb plain l
  | PDict d => distinct (keys d) && forallb (fun p => plain (snd p)) d
  | _ => false
  end.

(** How many containers enclose the deepest node of [v]. *)
Fixpoint nesting (v : pyval) : nat :=
  match v with
  | PList l => list_max (map (fun a => S (nesting a)) l)
  | PDict d => list_max (map (fun p => S (nesting (snd p))) d)
  | _ => O
  end.

(** One level of nesting: a one-element list or a one-item dict. *)
Inductive layer : Type := InList | InDict (name : string).

Definition wrap1 (l : layer) (v : pyval) : pyval :=
  match l with
  | InList => PList [v]
  | InDict name => PDict [(name, v)]
  end.

(** [v] under the layers [ls], outermost first. *)
Definition wrap (ls : list layer) (v : pyval) : pyval := fold_right wrap1 v ls.

(** [v] under [n] lists. *)
Definition nest (n : nat) (v : pyval) : pyval := wrap (repeat InList n) v.

(** The channels of the remote-object references of [v], depth first and
    left to right, each occurrence counted. *)
Fixpoint handles_of (v : pyval) : list Channel :=
  match v with
  | PHandle j => [_channel j]
  | PList l => flat_map handles_of l
  | PDict d => flat_map (fun p => handles_of (snd p)) d
  | _ => []
  end.

(** The payloads of the handle-tag nodes of a wire value, depth first and
    left to right.  Nodes are what the encoder emits: a one-key dict tagged
    [h], [a] or [o], or anything else, which holds no node. *)
Fixpoint wire_handles (w : pyval) : list pyval :=
  match w with
  | PDict [(tag, x)] =>
      if String.eqb tag "h" then [x]
      else if String.eqb tag "a" then
        match x with PList l => flat_map wire_handles l | _ => [] end
      else if String.eqb tag "o" then
        match x with
        | PDict d => flat_map (fun p => wire_handles (snd p)) d
        | _ => []
        end
      else []
  | _ => []
  end.

(** The indices [start, start + 1, ..., start + n - 1] as wire integers. *)
Definition indices (start n : nat) : list pyval :=
  map (fun k => PInt (Z.of_nat k)) (seq start n).

(** What encoding [v] does to the handle list and which indices it puts
    on the wire, whatever the list and the depth it starts from. *)
Definition handles_in_order (v : pyval) : Prop :=
  forall (hs : list Channel) (depth : Z) (w : pyval) (hs' : list Channel),
    well_formed v = true ->
    serialize_value v hs depth = (Return w, hs') ->
    hs' = (hs ++ handles_of v)%list
    /\ wire_handles w
       = indices (List.length hs) (List.length (handles_of v)).

(** [c] does not occur in [s]. *)
Definition absent (c : ascii) (s : string) : Prop := find c s = -1.

(** What [_parse_isoformat_time] returns once it has split its argument
    into the time of day, the sign and the offset text. *)
Definition time_with_zone (tstr : string) (sign : Z) (tzstr : string)
  : option (Z * Z * Z * Z * option Z) :=
  match parse_hh_mm_ss_ff tstr with
  | None => None
  | Some (hh, mm, ss, us) =>
      match parse_hh_mm_ss_ff tzstr with
      | None => None
      | Some (th, tm, ts, tu) =>
          if (th =? 0) && (tm =? 0) && (ts =? 0) && (tu =? 0)
          then Some (hh, mm, ss, us, Some 0)
          else Some (hh, mm, ss, us,
                     Some (sign * (((th * 60 + tm) * 60 + ts) * 1000000 + tu)))
      end
  end.

(** The text [_format_offset] writes after the sign. *)
Definition offset_text (hh mm ss : Z) : string :=
  digits 2 hh ++ ":" ++ digits 2 mm
  ++ (if ss =? 0 then ""
      else ":" ++ digits 2 (ss / 1000000)
           ++ (if ss mod 1000000 =? 0 then ""
               else "." ++ digits 6 (ss mod 1000000))).

(** Encoding [v] succeeds without touching the handle list, and decoding
    the result gives a value that [==] finds equal to [v]. *)
Definition round_trips (v : pyval) : Prop :=
  forall (hs : list Channel) (depth : Z),
    plain v = true ->
    depth + Z.of_nat (nesting v) <= 100 ->
    exists w v',
      serialize_value v hs depth = (Return w, hs)
      /\ parse_value w = Return v'
      /\ py_eq v' v = true.

(** The encoder fails in one way only, and does fail on a plain value
    with a node under more than 100 containers. *)
Definition raises_only_depth_error (v : pyval) : Prop :=
  forall hs depth e hs',
    serialize_value v hs depth = (Raise e, hs') -> e = depth_error.

Definition fails_beyond_ceiling (v : pyval) : Prop :=
  forall hs depth,
    plain v = true -> 100 < depth + Z.of_nat (nesting v) ->
    exists hs', serialize_value v hs depth = (Raise depth_error, hs').

(** What the two loops over a dict amount to when its keys are distinct:
    the values are replaced one after the other, the keys stay in place. *)
Fixpoint map_items (f : pyval -> M pyval) (d : items) : M items :=
  match d with
  | [] => ret []
  | (name, x) :: r =>
      w <- f x ;; ws <- map_items f r ;; ret ((name, w) :: ws)
  end.

Fixpoint map_items_outcome (f : pyval -> outcome pyval) (d : items)
  : outcome items :=
  match d with
  | [] => Return []
  | (name, x) :: r =>
      w <~ f x ;; ws <~ map_items_outcome f r ;; Return ((name, w) :: ws)
  end.

Section Induction.
Variable P : pyval -> Prop.
Hypothesis HNone : P PNone.
Hypothesis HBool : forall b, P (PBool b).
Hypothesis HInt : forall z, P (PInt z).
Hypothesis HFloat : forall f, P (PFloat f).
Hypothesis HStr : forall s, P (PStr s).
Hypothesis HDatetime : forall d, P (PDatetime d).
Hypothesis HList : forall l, Forall P l -> P (PList l).
Hypothesis HDict : forall d, Forall (fun p => P (snd p)) d -> P (PDict d).
Hypothesis HHandle : forall h, P (PHandle h).
Hypothesis HObject : forall i, P (PObject i).

(** Induction over values with the hypothesis available for every element
    of a list and every value of a dict. *)
Fixpoint pyval_nested_ind (v : pyval) : P v :=
  match v with
  | PNone => HNone
  | PBool b => HBool b
  | PInt z => HInt z
  | PFloat f => HFloat f
  | PStr s => HStr s
  | PDatetime d => HDatetime d
  | PList l =>
      HList l
        ((fix go (l : list pyval) : Forall P l :=
            match l with
            | [] => Forall_nil P
            | a :: r => Forall_cons a (pyval_nested_ind a) (go r)
            end) l)
  | PDict d =>
      HDict d
        ((fix go (d : items) : Forall (fun p => P (snd p)) d :=
            match d with
            | [] => Forall_nil _
            | (k, x) :: r =>
                Forall_cons (P := fun p => P (snd p)) (k, x)
                  (pyval_nested_ind x) (go r)
            end) d)
  | PHandle h => HHandle h
  | PObject i => HObject i
  end.
End Induction.

End Shape.

(** ** The methods of JSHandle *)

Module Handle.
Import Py JsHandle.

(** What a method passes to [Channel.send] beside the method name. *)
Inductive params : Type :=
| NoParams
| EvaluateParams (expression : string) (isFunction : bool) (arg : argument)
| NameParams (name : string).

Section Methods.

(** [playwright.helper.is_function_body], [Channel.send] as the answer or
    the exception each message meets, and [playwright.connection.from_channel]
    are not part of this file. *)
Variable is_function_body : string -> bool.
Variable send : Channel -> string -> params -> outcome pyval.
Variable from_channel : pyval -> outcome JSHandle.

(** [__str__] *)
Definition __str__ (self : JSHandle) : string := _preview self.

Definition _on_preview_updated (self : JSHandle) (preview : string) : JSHandle :=
  mkJSHandle (_channel self) preview.

(** [evaluate]: the argument is encoded while the parameters are built,
    before anything is sent. *)
Definition evaluate (self : JSHandle) (expression : string) (arg : pyval)
  (force_expr : bool) : outcome pyval :=
  let force_expr :=
    if negb (is_function_body expression) then true else force_expr in
  a <~ serialize_argument arg ;;
  r <~ send (_channel self) "evaluateExpression"
         (EvaluateParams expression (negb force_expr) a) ;;
  parse_result r.

Definition evaluateHandle (self : JSHandle) (expression : string) (arg : pyval)
  (force_expr : bool) : outcome JSHandle :=
  let force_expr :=
    if negb (is_function_body expression) then true else force_expr in
  a <~ serialize_argument arg ;;
  r <~ send (_channel self) "evaluateExpressionHandle"
         (EvaluateParams expression (negb force_expr) a) ;;
  from_channel r.

Definition getProperty (self : JSHandle) (name : string) : outcome JSHandle :=
  r <~ send (_channel self) "getProperty" (NameParams name) ;; from_channel r.

Definition asElement (self : JSHandle) : pyval := PNone.

Definition dispose (self : JSHandle) : outcome unit :=
  r <~ send (_channel self) "dispose" NoParams ;; Return tt.

Definition jsonValue (self : JSHandle) : outcome pyval :=
  r <~ send (_channel self) "jsonValue" NoParams ;; parse_result r.

End Methods.

End Handle.

(** ** Further vocabulary *)

Module Wire.
Import Py JsHandle Shape.

(** One more than the number of containers above the deepest node of [v]
    that is not a handle; [0] for a handle. *)
Fixpoint reach (v : pyval) : nat :=
  match v with
  | PHandle _ => O
  | PList l => S (list_max (map reach l))
  | PDict d => S (list_max (map (fun p => reach (snd p)) d))
  | _ => 1%nat
  end.

(** The strings the encoder puts under the key v. *)
Definition emitted_sentinels : list string :=
  ["undefined"; "Infinity"; "-Infinity"; "-0"; "NaN"].

(** The strings the decoder gives a meaning to under the key v. *)
Definition sentinels : list string := "null" :: emitted_sentinels.

(** The nodes of the wire format as the encoder writes them: a raw
    [bool], [int], [str] or float that is finite and not a zero, or a dict
    of one key, v with a sentinel, d with a text, h with an index that is
    not negative, a with a list of nodes, o with a dict of nodes. *)
Fixpoint wire_node (w : pyval) : bool :=
  match w with
  | PBool _ | PInt _ | PStr _ => true
  | PFloat (S754_finite _ _ _) => true
  | PDict [(tag, x)] =>
      if String.eqb tag "v" then
        match x with
        | PStr s => existsb (String.eqb s) emitted_sentinels
        | _ => false
        end
      else if String.eqb tag "d" then
        match x with PStr _ => true | _ => false end
      else if String.eqb tag "h" then
        match x with PInt i => 0 <=? i | _ => false end
      else if String.eqb tag "a" then
        match x with PList l => forallb wire_node l | _ => false end
      else if String.eqb tag "o" then
        match x with
        | PDict d =>
            distinct (keys d) && forallb (fun p => wire_node (snd p)) d
        | _ => false
        end
      else false
  | _ => false
  end.

(** Values without remote-object references whose dicts have distinct keys
    and whose timestamps the [datetime] constructor accepts. *)
Fixpoint self_contained (v : pyval) : bool :=
  match v with
  | PHandle _ => false
  | PDatetime d => valid_datetime d
  | PList l => forallb self_contained l
  | PDict d =>
      distinct (keys d) && forallb (fun p => self_contained (snd p)) d
  | _ => true
  end.

(** What comes back from encoding and decoding [v]: [v] itself but for the
    objects of unknown type, which come back as [None], and the zeros,
    which come back as [-0.0]. *)
Fixpoint received (v : pyval) : pyval :=
  match v with
  | PObject _ => PNone
  | PFloat (S754_zero _) => PFloat neg_zero
  | PList l => PList (map received l)
  | PDict d => PDict (map (fun p => (fst p, received (snd p))) d)
  | _ => v
  end.

Definition succeeds_within_reach (v : pyval) : Prop :=
  forall hs depth,
    depth + Z.of_nat (reach v) <= 101 ->
    exists w hs', serialize_value v hs depth = (Return w, hs').

Definition fails_beyond_reach (v : pyval) : Prop :=
  forall hs depth,
    is_handle v = false ->
    101 < depth + Z.of_nat (reach v) ->
    exists hs', serialize_value v hs depth = (Raise depth_error, hs').

(** The handle list after a call is the list before it followed by the
    channels of the references met, all of them when the call returns. *)
Definition appends_only (v : pyval) : Prop :=
  forall hs depth,
    exists added rest,
      snd (serialize_value v hs depth) = (hs ++ added)%list
      /\ handles_of v = (added ++ rest)%list
      /\ (forall w, fst (serialize_value v hs depth) = Return w -> rest = []).

(** The outcome of encoding [v] and the number of channels appended are
    the same for two handle lists of the same length. *)
Definition reads_only_length (v : pyval) : Prop :=
  forall hs1 hs2 depth,
    List.length hs1 = List.length hs2 ->
    fst (serialize_value v hs1 depth) = fst (serialize_value v hs2 depth)
    /\ List.length (snd (serialize_value v hs1 depth))
       = List.length (snd (serialize_value v hs2 depth)).

(** What encoding [v] returns at one depth it returns at every smaller
    one. *)
Definition same_at_smaller_depth (v : pyval) : Prop :=
  forall hs depth depth' w hs',
    serialize_value v hs depth = (Return w, hs') ->
    depth' <= depth ->
    serialize_value v hs depth' = (Return w, hs').

(** Every timestamp in [v] is one the [datetime] constructor accepts and
    whose offset [utcoffset()] accepts, so that [isoformat()] returns. *)
Fixpoint timestamps_valid (v : pyval) : bool :=
  match v with
  | PDatetime d => valid_datetime d
  | PList l => forallb timestamps_valid l
  | PDict d => forallb (fun p => timestamps_valid (snd p)) d
  | _ => true
  end.

(** [node_at n v u]: [u] is a node of [v] under [n] containers, a list
    counting for its elements and a dict for its values. *)
Inductive node_at : nat -> pyval -> pyval -> Prop :=
| node_here (v : pyval) : node_at O v v
| node_in_list (n : nat) (l : list pyval) (a u : pyval) :
    In a l -> node_at n a u -> node_at (S n) (PList l) u
| node_in_dict (n : nat) (d : items) (k : string) (x u : pyval) :
    In (k, x) d -> node_at n x u -> node_at (S n) (PDict d) u.

(** [v], met at [depth], is not a handle and has a node that is not a handle
    at a depth above 100. *)
Definition too_deep (v : pyval) (depth : Z) : bool :=
  negb (is_handle v) && (101 <? depth + Z.of_nat (reach v)).

Section UntilFailure.
Context (kept : pyval -> list Channel) (stops : pyval -> bool).

(** What the elements keep, up to and including the first that stops. *)
Fixpoint until_failure (l : list pyval) : list Channel :=
  match l with
  | [] => []
  | a :: r => (kept a ++ if stops a then [] else until_failure r)%list
  end.

Fixpoint until_failure_items (d : items) : list Channel :=
  match d with
  | [] => []
  | (_, x) :: r => (kept x ++ if stops x then [] else until_failure_items r)%list
  end.
End UntilFailure.

(** The channels of the references of [v], met at [depth], that come depth
    first and left to right before the first node that is not a handle and
    lies at a depth above 100; all the references of [v] when there is no
    such node. *)
Fixpoint kept (v : pyval) (depth : Z) : list Channel :=
  match v with
  | PHandle j => [_channel j]
  | PList l =>
      if 100 <? depth then []
      else until_failure (fun a => kept a (depth + 1))
             (fun a => too_deep a (depth + 1)) l
  | PDict d =>
      if 100 <? depth then []
      else until_failure_items (fun x => kept x (depth + 1))
             (fun x => too_deep x (depth + 1)) d
  | _ => []
  end.

Definition keeps_what_it_met (v : pyval) : Prop :=
  forall hs depth,
    snd (serialize_value v hs depth) = (hs ++ kept v depth)%list.

(** [parse_value w] returns. *)
Definition decodes (w : pyval) : bool :=
  match parse_value w with Return _ => true | Raise _ => false end.

Definition output_decodes (v : pyval) : Prop :=
  forall hs depth w hs',
    timestamps_valid v = true ->
    serialize_value v hs depth = (Return w, hs') ->
    decodes w = true.

Definition has_deepest_node (v : pyval) : Prop :=
  (0 < reach v)%nat ->
  exists u, node_at (reach v - 1) v u /\ is_handle u = false.

Definition emits_wire_nodes (v : pyval) : Prop :=
  forall hs depth w hs',
    serialize_value v hs depth = (Return w, hs') -> wire_node w = true.

Definition comes_back_received (v : pyval) : Prop :=
  forall hs depth,
    self_contained v = true ->
    depth + Z.of_nat (reach v) <= 101 ->
    exists w,
      serialize_value v hs depth = (Return w, hs)
      /\ parse_value w = Return (received v).

End Wire.

(** ** Properties *)

Import Py JsHandle Shape Wire.

(** *** Lookups *)

Lemma dict_get_with_get {B} (f : pyval -> B) (d : items) (name : string) :
  dict_get_with f d name = option_map f (dict_get d name).
Proof.
  induction d as [|[k x] r IH]; simpl; [reflexivity|].
  destruct (String.eqb k name); [reflexivity | exact IH].
Qed.

Lemma dict_in_false (d : items) (name : string) :
  dict_in name d = false -> dict_get d name = None.
Proof.
  unfold dict_in. destruct (dict_get d name); [discriminate | reflexivity].
Qed.

(** A dict that carries none of the keys the decoder looks for comes back
    as it is. *)
Lemma parse_value_untagged (d : items) :
  dict_get d "v" = None -> dict_get d "a" = None ->
  dict_get d "d" = None -> dict_get d "o" = None ->
  parse_value (PDict d) = Return (PDict d).
Proof.
  intros Hv Ha Hd Ho. cbn [parse_value].
  rewrite !dict_get_with_get, Hv, Ha, Hd, Ho. reflexivity.
Qed.

(** *** Remote-object references *)

(** C7. Whatever the depth, also above the ceiling of 100, serialize_value
    on a JSHandle never raises: it appends the handle's channel to the
    handle list and returns the node {h: index}, the index being the length
    the list had before. *)
Theorem serialize_value_handle_any_depth :
  forall (j : JSHandle) (hs : list Channel) (depth : Z),
    serialize_value (PHandle j) hs depth
    = (Return (dict1 "h" (PInt (Z.of_nat (List.length hs)))),
       (hs ++ [_channel j])%list).
Proof. intros j hs depth. reflexivity. Qed.

(** C2, as the code has it. Decoding a node that carries only the handle
    tag returns the node itself: parse_value has no resolver to call, and
    raises nothing. *)
Theorem parse_value_handle_tag_unchanged :
  forall index : Z,
    parse_value (dict1 "h" (PInt index)) = Return (dict1 "h" (PInt index))
    /\ parse_result (dict1 "h" (PInt index)) = Return (dict1 "h" (PInt index)).
Proof. intros index. split; reflexivity. Qed.

(** C2, as stated, fails: were the decoder to return what a resolver gives
    for the index, it would agree with every resolver; it does not with one
    that yields a reference, nor with one that fails. *)
Lemma parse_value_handle_tag_counterexample :
  let ref := PHandle (mkJSHandle (mkChannel "handle@1") "JSHandle@object") in
  parse_value (dict1 "h" (PInt 0)) <> Return ref
  /\ parse_value (dict1 "h" (PInt 0)) <> Raise (Error "Object not found")
  /\ ~ (forall (resolveHandle : Z -> outcome pyval) (index : Z),
          parse_value (dict1 "h" (PInt index)) = resolveHandle index).
Proof.
  cbv zeta. split; [|split].
  - discriminate.
  - discriminate.
  - intros H. specialize (H (fun _ => Raise TypeError) 0). discriminate H.
Qed.

(** *** Sentinels *)

Lemma serialize_value_inf (hs : list Channel) (depth : Z) :
  depth <= 100 ->
  serialize_value (PFloat inf) hs depth
  = (Return (dict1 "v" (PStr "Infinity")), hs).
Proof.
  intros H. cbn. destruct (Z.ltb_spec 100 depth); [lia | reflexivity].
Qed.

Lemma serialize_value_neg_inf (hs : list Channel) (depth : Z) :
  depth <= 100 ->
  serialize_value (PFloat neg_inf) hs depth
  = (Return (dict1 "v" (PStr "-Infinity")), hs).
Proof.
  intros H. cbn. destruct (Z.ltb_spec 100 depth); [lia | reflexivity].
Qed.

Lemma serialize_value_neg_zero (hs : list Channel) (depth : Z) :
  depth <= 100 ->
  serialize_value (PFloat neg_zero) hs depth
  = (Return (dict1 "v" (PStr "-0")), hs).
Proof.
  intros H. cbn. destruct (Z.ltb_spec 100 depth); [lia | reflexivity].
Qed.

Lemma serialize_value_nan (hs : list Channel) (depth : Z) :
  depth <= 100 ->
  serialize_value (PFloat nan) hs depth = (Return (dict1 "v" (PStr "NaN")), hs).
Proof.
  intros H. cbn. destruct (Z.ltb_spec 100 depth); [lia | reflexivity].
Qed.

(** A float that is neither infinite, nor a zero, nor NaN is emitted raw. *)
Lemma serialize_value_finite_nonzero
  (s : bool) (m : positive) (e : Z) (hs : list Channel) (depth : Z) :
  depth <= 100 ->
  serialize_value (PFloat (S754_finite s m e)) hs depth
  = (Return (PFloat (S754_finite s m e)), hs).
Proof.
  intros H. cbn. destruct (Z.ltb_spec 100 depth); [lia|].
  destruct s; reflexivity.
Qed.

Lemma parse_value_sentinels :
  parse_value (dict1 "v" (PStr "Infinity")) = Return (PFloat inf)
  /\ parse_value (dict1 "v" (PStr "-Infinity")) = Return (PFloat neg_inf)
  /\ parse_value (dict1 "v" (PStr "-0")) = Return (PFloat neg_zero)
  /\ parse_value (dict1 "v" (PStr "NaN")) = Return (PFloat nan)
  /\ parse_value (dict1 "v" (PStr "undefined")) = Return PNone
  /\ parse_value (dict1 "v" (PStr "null")) = Return PNone.
Proof. repeat split; reflexivity. Qed.

(** C3, where the code departs from it. Positive zero does not fall through
    to the raw number: 0.0 == float("-0") holds, so the negative-zero test
    takes it, the encoder emits {v: "-0"}, and decoding gives -0.0, whose
    sign differs from that of the value encoded. *)
Theorem serialize_value_positive_zero :
  serialize_value (PFloat pos_zero) [] 0 = (Return (dict1 "v" (PStr "-0")), [])
  /\ serialize_value (PFloat pos_zero) [] 0 <> (Return (PFloat pos_zero), [])
  /\ parse_value (dict1 "v" (PStr "-0")) = Return (PFloat neg_zero)
  /\ PFloat neg_zero <> PFloat pos_zero.
Proof. repeat split; try reflexivity; discriminate. Qed.

(** C8. At every depth up to the ceiling, None and an object of a type the
    encoder does not know both encode to {v: "undefined"} without raising
    and without touching the handle list; {v: "undefined"} and {v: "null"}
    both decode to None. *)
Theorem absent_and_unknown_are_undefined :
  forall (hs : list Channel) (depth : Z) (id : nat),
    depth <= 100 ->
    serialize_value PNone hs depth = (Return (dict1 "v" (PStr "undefined")), hs)
    /\ serialize_value (PObject id) hs depth
       = (Return (dict1 "v" (PStr "undefined")), hs)
    /\ serialize_argument PNone
       = Return (mkArgument (dict1 "v" (PStr "undefined")) [])
    /\ serialize_argument (PObject id)
       = Return (mkArgument (dict1 "v" (PStr "undefined")) [])
    /\ parse_value (dict1 "v" (PStr "undefined")) = Return PNone
    /\ parse_value (dict1 "v" (PStr "null")) = Return PNone.
Proof.
  intros hs depth id H. cbn.
  destruct (Z.ltb_spec 100 depth); [lia|]. repeat split.
Qed.

Lemma absent_and_unknown_are_undefined_witness :
  serialize_value PNone [] 0 = (Return (dict1 "v" (PStr "undefined")), [])
  /\ serialize_value (PObject 7) [] 0
     = (Return (dict1 "v" (PStr "undefined")), [])
  /\ serialize_argument PNone
     = Return (mkArgument (dict1 "v" (PStr "undefined")) [])
  /\ serialize_argument (PObject 7)
     = Return (mkArgument (dict1 "v" (PStr "undefined")) [])
  /\ parse_value (dict1 "v" (PStr "undefined")) = Return PNone
  /\ parse_value (dict1 "v" (PStr "null")) = Return PNone.
Proof. apply (absent_and_unknown_are_undefined [] 0 7). lia. Defined.

(** C9. A dict that carries none of the keys v, a, d and o is returned by
    parse_value as it is, and nothing is raised. *)
Theorem parse_value_unknown_tag_unchanged :
  forall d : items,
    dict_in "v" d = false -> dict_in "a" d = false ->
    dict_in "d" d = false -> dict_in "o" d = false ->
    parse_value (PDict d) = Return (PDict d).
Proof.
  intros d Hv Ha Hd Ho.
  apply parse_value_untagged; apply dict_in_false; assumption.
Qed.

Lemma parse_value_unknown_tag_unchanged_witness :
  parse_value (PDict [("x", PInt 1); ("future", PList [PNone])])
  = Return (PDict [("x", PInt 1); ("future", PList [PNone])]).
Proof.
  apply (parse_value_unknown_tag_unchanged
           [("x", PInt 1); ("future", PList [PNone])]); reflexivity.
Defined.

(** C10. A string is encoded as itself, untagged, whatever it spells, and a
    bare string decodes to itself; so a string that spells a sentinel comes
    back as that string, not as the float or the None that the sentinel
    stands for inside a {v: ...} node. *)
Theorem sentinel_text_is_plain_text :
  forall (s : string) (hs : list Channel) (depth : Z),
    depth <= 100 ->
    serialize_value (PStr s) hs depth = (Return (PStr s), hs)
    /\ serialize_argument (PStr s) = Return (mkArgument (PStr s) [])
    /\ parse_value (PStr s) = Return (PStr s)
    /\ (forall f, parse_value (PStr s) <> Return (PFloat f))
    /\ parse_value (PStr s) <> Return PNone.
Proof.
  intros s hs depth H. cbn.
  destruct (Z.ltb_spec 100 depth); [lia|].
  repeat split; intros; discriminate.
Qed.

Lemma sentinel_text_is_plain_text_witness :
  serialize_value (PStr "Infinity") [] 0 = (Return (PStr "Infinity"), [])
  /\ serialize_argument (PStr "Infinity")
     = Return (mkArgument (PStr "Infinity") [])
  /\ parse_value (PStr "Infinity") = Return (PStr "Infinity")
  /\ (forall f, parse_value (PStr "Infinity") <> Return (PFloat f))
  /\ parse_value (PStr "Infinity") <> Return PNone.
Proof. apply (sentinel_text_is_plain_text "Infinity" [] 0). lia. Defined.

(** *** The depth ceiling *)

(** The check comes first for everything but a handle: above the ceiling
    the call raises and the handle list is as it was. *)
Lemma serialize_value_above_ceiling (v : pyval) (hs : list Channel) (depth : Z) :
  is_handle v = false -> 100 < depth ->
  serialize_value v hs depth = (Raise depth_error, hs).
Proof.
  intros Hv Hd. apply Z.ltb_lt in Hd.
  destruct v; try discriminate Hv; cbn [serialize_value]; rewrite Hd;
    reflexivity.
Qed.

Lemma wrap1_not_handle (l : layer) (v : pyval) : is_handle (wrap1 l v) = false.
Proof. destruct l; reflexivity. Qed.

Lemma wrap_not_handle (ls : list layer) (v : pyval) :
  is_handle v = false -> is_handle (wrap ls v) = false.
Proof.
  destruct ls as [|l ls]; [trivial|]. intros _. apply wrap1_not_handle.
Qed.

(** Encoding one layer runs the encoder on its content one level down. *)
Lemma serialize_value_wrap1 (l : layer) (v : pyval) (hs : list Channel) (depth : Z) :
  depth <= 100 ->
  serialize_value (wrap1 l v) hs depth
  = match serialize_value v hs (depth + 1) with
    | (Return w, hs') => (Return (wrap1 match l with
                                       | InList => InDict "a"
                                       | InDict _ => InDict "o"
                                       end (wrap1 l w)), hs')
    | (Raise e, hs') => (Raise e, hs')
    end.
Proof.
  intros H. destruct l as [|name]; cbn [wrap1 serialize_value];
    (destruct (Z.ltb_spec 100 depth); [lia|]);
    cbn [map_list for_items]; unfold bind, ret;
    destruct (serialize_value v hs (depth + 1)) as [[w|e] hs']; reflexivity.
Qed.

Lemma serialize_value_too_deep (ls : list layer) :
  forall (v : pyval) (hs : list Channel) (depth : Z),
    is_handle v = false -> 100 < depth + Z.of_nat (List.length ls) ->
    serialize_value (wrap ls v) hs depth = (Raise depth_error, hs).
Proof.
  induction ls as [|l ls IH]; intros v hs depth Hv Hd; cbn [wrap fold_right].
  - apply serialize_value_above_ceiling; [assumption | cbn in Hd; lia].
  - destruct (Z.le_gt_cases depth 100) as [Hle|Hgt].
    + rewrite serialize_value_wrap1 by assumption.
      fold (wrap ls v). rewrite IH; [reflexivity | assumption |].
      cbn [List.length] in Hd. lia.
    + apply serialize_value_above_ceiling; [apply wrap1_not_handle | lia].
Qed.

(** A value that is neither a container nor a handle encodes at every depth
    up to the ceiling, and leaves the handle list alone. *)
Lemma serialize_value_leaf (v : pyval) (hs : list Channel) (depth : Z) :
  is_handle v = false -> is_container v = false -> depth <= 100 ->
  exists w, serialize_value v hs depth = (Return w, hs).
Proof.
  intros Hh Hc Hd.
  destruct v; try discriminate; cbn [serialize_value];
    (destruct (Z.ltb_spec 100 depth); [lia|]); try (eexists; reflexivity).
  repeat match goal with
         | |- context [if ?b then _ else _] => destruct b
         end; eexists; reflexivity.
Qed.

Lemma serialize_value_within (ls : list layer) :
  forall (v : pyval) (hs : list Channel) (depth : Z),
    is_handle v = false -> is_container v = false ->
    depth + Z.of_nat (List.length ls) <= 100 ->
    exists w, serialize_value (wrap ls v) hs depth = (Return w, hs).
Proof.
  induction ls as [|l ls IH]; intros v hs depth Hh Hc Hd; cbn [wrap fold_right].
  - apply serialize_value_leaf; [assumption | assumption | cbn in Hd; lia].
  - cbn [List.length] in Hd. rewrite serialize_value_wrap1 by lia.
    fold (wrap ls v).
    destruct (IH v hs (depth + 1) Hh Hc) as [w Hw]; [lia|].
    rewrite Hw. eexists; reflexivity.
Qed.

(** *** Dicts with distinct keys *)

Lemma existsb_eqb_In (k : string) (ks : list string) :
  existsb (String.eqb k) ks = true <-> In k ks.
Proof.
  rewrite existsb_exists. split.
  - intros [x [Hin Heq]]. apply String.eqb_eq in Heq. subst. assumption.
  - intros Hin. exists k. split; [assumption | apply String.eqb_refl].
Qed.

Lemma distinct_cons (k : string) (ks : list string) :
  distinct (k :: ks) = true <-> ~ In k ks /\ distinct ks = true.
Proof.
  cbn [distinct]. rewrite andb_true_iff, negb_true_iff.
  rewrite <- existsb_eqb_In. destruct (existsb (String.eqb k) ks); intuition congruence.
Qed.

Lemma dict_set_fresh (acc : items) (name : string) (x : pyval) :
  ~ In name (keys acc) -> dict_set acc name x = (acc ++ [(name, x)])%list.
Proof.
  induction acc as [|[k y] r IH]; intros Hn; cbn [dict_set app]; [reflexivity|].
  cbn [keys map fst In] in Hn.
  destruct (String.eqb_spec k name) as [->|Hne]; [tauto|].
  rewrite IH; [reflexivity|]. unfold keys. tauto.
Qed.

Lemma keys_app (a b : items) : keys (a ++ b)%list = (keys a ++ keys b)%list.
Proof. apply map_app. Qed.

Lemma for_items_distinct (f : pyval -> M pyval) (d : items) :
  forall (acc : items) (hs : list Channel),
    distinct (keys d) = true ->
    (forall k, In k (keys d) -> ~ In k (keys acc)) ->
    for_items f d acc hs
    = match map_items f d hs with
      | (Return r, hs') => (Return (acc ++ r)%list, hs')
      | (Raise e, hs') => (Raise e, hs')
      end.
Proof.
  induction d as [|[name x] r IH]; intros acc hs Hd Hfresh;
    cbn [for_items map_items]; unfold bind, ret.
  - rewrite app_nil_r. reflexivity.
  - cbn [keys map fst] in Hd. apply distinct_cons in Hd. destruct Hd as [Hn Hd].
    destruct (f x hs) as [[w|e] hs1]; [|reflexivity].
    rewrite IH.
    + destruct (map_items f r hs1) as [[ws|e] hs2]; [|reflexivity].
      rewrite dict_set_fresh by (apply Hfresh; left; reflexivity).
      rewrite <- app_assoc. reflexivity.
    + exact Hd.
    + intros k Hk. rewrite dict_set_fresh by (apply Hfresh; left; reflexivity).
      rewrite keys_app, in_app_iff. cbn [keys map fst In].
      intros [Hacc|[Heq|[]]].
      * apply (Hfresh k); [right; exact Hk | exact Hacc].
      * subst. apply Hn. exact Hk.
Qed.

Lemma for_items_outcome_distinct (f : pyval -> outcome pyval) (d : items) :
  forall acc : items,
    distinct (keys d) = true ->
    (forall k, In k (keys d) -> ~ In k (keys acc)) ->
    for_items_outcome f d acc
    = match map_items_outcome f d with
      | Return r => Return (acc ++ r)%list
      | Raise e => Raise e
      end.
Proof.
  induction d as [|[name x] r IH]; intros acc Hd Hfresh;
    cbn [for_items_outcome map_items_outcome]; unfold bind_outcome.
  - rewrite app_nil_r. reflexivity.
  - cbn [keys map fst] in Hd. apply distinct_cons in Hd. destruct Hd as [Hn Hd].
    destruct (f x) as [w|e]; [|reflexivity].
    rewrite IH.
    + destruct (map_items_outcome f r) as [ws|e]; [|reflexivity].
      rewrite dict_set_fresh by (apply Hfresh; left; reflexivity).
      rewrite <- app_assoc. reflexivity.
    + exact Hd.
    + intros k Hk. rewrite dict_set_fresh by (apply Hfresh; left; reflexivity).
      rewrite keys_app, in_app_iff. cbn [keys map fst In].
      intros [Hacc|[Heq|[]]].
      * apply (Hfresh k); [right; exact Hk | exact Hacc].
      * subst. apply Hn. exact Hk.
Qed.

(** The encoder on a list and on a dict with distinct keys. *)
Lemma serialize_value_list (l : list pyval) (hs : list Channel) (depth : Z) :
  depth <= 100 ->
  serialize_value (PList l) hs depth
  = match map_list (fun a hs => serialize_value a hs (depth + 1)) l hs with
    | (Return ws, hs') => (Return (dict1 "a" (PList ws)), hs')
    | (Raise e, hs') => (Raise e, hs')
    end.
Proof.
  intros H. cbn [serialize_value].
  destruct (Z.ltb_spec 100 depth); [lia|]. reflexivity.
Qed.

Lemma serialize_value_dict (d : items) (hs : list Channel) (depth : Z) :
  depth <= 100 -> distinct (keys d) = true ->
  serialize_value (PDict d) hs depth
  = match map_items (fun x hs => serialize_value x hs (depth + 1)) d hs with
    | (Return r, hs') => (Return (dict1 "o" (PDict r)), hs')
    | (Raise e, hs') => (Raise e, hs')
    end.
Proof.
  intros H Hd. cbn [serialize_value].
  destruct (Z.ltb_spec 100 depth); [lia|]. unfold bind, ret.
  rewrite for_items_distinct by (assumption || (intros k _ [])).
  destruct (map_items _ d hs) as [[r|e] hs']; reflexivity.
Qed.

(** *** Handles and their indices *)

Lemma indices_app (start a b : nat) :
  indices start (a + b) = (indices start a ++ indices (start + a) b)%list.
Proof. unfold indices. rewrite seq_app, map_app. reflexivity. Qed.

Lemma indices_bound (start n : nat) (x : pyval) :
  In x (indices start n) ->
  exists k : nat, x = PInt (Z.of_nat k) /\ (start <= k < start + n)%nat.
Proof.
  unfold indices. rewrite in_map_iff. intros [k [Hx Hk]].
  apply in_seq in Hk. exists k. split; [symmetry; exact Hx | exact Hk].
Qed.

Lemma map_list_handles (depth : Z) (l : list pyval) :
  Forall handles_in_order l ->
  forall (hs : list Channel) (ws : list pyval) (hs' : list Channel),
    forallb well_formed l = true ->
    map_list (fun a hs => serialize_value a hs depth) l hs = (Return ws, hs') ->
    hs' = (hs ++ flat_map handles_of l)%list
    /\ flat_map wire_handles ws
       = indices (List.length hs) (List.length (flat_map handles_of l)).
Proof.
  induction 1 as [|a r Ha _ IH]; intros hs ws hs' Hwf Hrun;
    cbn [map_list] in Hrun; unfold bind, ret in Hrun.
  - inversion Hrun; subst. cbn. rewrite app_nil_r. split; reflexivity.
  - cbn [forallb] in Hwf. apply andb_true_iff in Hwf. destruct Hwf as [Hwa Hwr].
    destruct (serialize_value a hs depth) as [[w|e] hs1] eqn:Ea; [|discriminate].
    destruct (map_list _ r hs1) as [[ws'|e] hs2] eqn:Er; [|discriminate].
    inversion Hrun; subst ws hs'; clear Hrun.
    destruct (Ha hs depth w hs1 Hwa Ea) as [-> Hw].
    destruct (IH _ _ _ Hwr Er) as [-> Hws].
    cbn [flat_map]. split; [rewrite app_assoc; reflexivity|].
    rewrite Hw, Hws, !length_app, indices_app. reflexivity.
Qed.

Lemma map_items_handles (depth : Z) (d : items) :
  Forall (fun p => handles_in_order (snd p)) d ->
  forall (hs : list Channel) (r : items) (hs' : list Channel),
    forallb (fun p => well_formed (snd p)) d = true ->
    map_items (fun x hs => serialize_value x hs depth) d hs = (Return r, hs') ->
    hs' = (hs ++ flat_map (fun p => handles_of (snd p)) d)%list
    /\ flat_map (fun p => wire_handles (snd p)) r
       = indices (List.length hs)
           (List.length (flat_map (fun p => handles_of (snd p)) d)).
Proof.
  induction 1 as [|[name x] t Hx _ IH]; intros hs r hs' Hwf Hrun;
    cbn [map_items] in Hrun; unfold bind, ret in Hrun.
  - inversion Hrun; subst. cbn. rewrite app_nil_r. split; reflexivity.
  - cbn [forallb snd] in Hwf. apply andb_true_iff in Hwf.
    destruct Hwf as [Hwx Hwt]. cbn [snd] in Hx.
    destruct (serialize_value x hs depth) as [[w|e] hs1] eqn:Ex; [|discriminate].
    destruct (map_items _ t hs1) as [[r'|e] hs2] eqn:Et; [|discriminate].
    inversion Hrun; subst r hs'; clear Hrun.
    destruct (Hx hs depth w hs1 Hwx Ex) as [-> Hw].
    destruct (IH _ _ _ Hwt Et) as [-> Hr].
    cbn [flat_map snd]. split; [rewrite app_assoc; reflexivity|].
    rewrite Hw, Hr, !length_app, indices_app. reflexivity.
Qed.

Lemma serialize_value_handles (v : pyval) : handles_in_order v.
Proof.
  induction v as [| b | z | f | s | dt | l IH | d IH | j | i]
    using pyval_nested_ind; intros hs depth w hs' Hwf Hrun;
    try (cbn [serialize_value] in Hrun; unfold raise, ret in Hrun;
         destruct (100 <? depth); [discriminate|];
         repeat match type of Hrun with
                | context [if ?b then _ else _] => destruct b
                end;
         inversion Hrun; subst; cbn; rewrite app_nil_r; split; reflexivity).
  - destruct (Z.le_gt_cases depth 100) as [Hd|Hd].
    + rewrite serialize_value_list in Hrun by assumption.
      destruct (map_list _ l hs) as [[ws|e] hs1] eqn:El; [|discriminate].
      inversion Hrun; subst w hs'; clear Hrun.
      cbn [well_formed] in Hwf.
      destruct (map_list_handles _ l IH _ _ _ Hwf El) as [-> Hws].
      split; [reflexivity | exact Hws].
    + rewrite serialize_value_above_ceiling in Hrun by (reflexivity || lia).
      discriminate.
  - destruct (Z.le_gt_cases depth 100) as [Hd|Hd].
    + cbn [well_formed] in Hwf. apply andb_true_iff in Hwf.
      destruct Hwf as [Hk Hwf].
      rewrite serialize_value_dict in Hrun by assumption.
      destruct (map_items _ d hs) as [[r|e] hs1] eqn:Ed; [|discriminate].
      inversion Hrun; subst w hs'; clear Hrun.
      destruct (map_items_handles _ d IH _ _ _ Hwf Ed) as [-> Hr].
      split; [reflexivity | exact Hr].
    + rewrite serialize_value_above_ceiling in Hrun by (reflexivity || lia).
      discriminate.
  - cbn [serialize_value] in Hrun. inversion Hrun; subst. split; reflexivity.
Qed.

(** C6. In the envelope serialize_argument returns, the handle list is the
    channels of the remote-object references of the argument in depth-first,
    left-to-right order, one entry per occurrence, and the handle-tag nodes
    of the wire value carry, in the same order, the indices 0, 1, 2, ...; so
    every index on the wire is a position of the handle list.  A list of two
    references gives {a: [{h: 0}, {h: 1}]} with both channels in order, also
    when the two references are the same. *)
Theorem handle_indices_follow_handle_list :
  forall (v : pyval) (arg : argument) (refA refB : JSHandle),
    well_formed v = true ->
    serialize_argument v = Return arg ->
    handles arg = handles_of v
    /\ wire_handles (value arg) = indices 0 (List.length (handles arg))
    /\ (forall x, In x (wire_handles (value arg)) ->
          exists k : nat,
            x = PInt (Z.of_nat k) /\ (k < List.length (handles arg))%nat)
    /\ serialize_argument (PList [PHandle refA; PHandle refB])
       = Return (mkArgument
                   (dict1 "a" (PList [dict1 "h" (PInt 0); dict1 "h" (PInt 1)]))
                   [_channel refA; _channel refB])
    /\ serialize_argument (PList [PHandle refA; PHandle refA])
       = Return (mkArgument
                   (dict1 "a" (PList [dict1 "h" (PInt 0); dict1 "h" (PInt 1)]))
                   [_channel refA; _channel refA]).
Proof.
  intros v arg refA refB Hwf Hrun. unfold serialize_argument in Hrun.
  destruct (serialize_value v [] 0) as [[w|e] hs] eqn:E; [|discriminate].
  inversion Hrun; subst arg; clear Hrun. cbn [handles value].
  destruct (serialize_value_handles v [] 0 w hs Hwf E) as [Hhs Hw].
  cbn [app List.length] in Hhs, Hw. subst hs.
  split; [reflexivity|]. split; [exact Hw|]. split; [|split; reflexivity].
  intros x Hx. rewrite Hw in Hx. apply indices_bound in Hx.
  destruct Hx as [k [-> Hk]]. exists k. split; [reflexivity | lia].
Qed.

Lemma handle_indices_follow_handle_list_witness :
  let a := mkJSHandle (mkChannel "handle@A") "A" in
  let b := mkJSHandle (mkChannel "handle@B") "B" in
  let v := PDict [("x", PList [PHandle a; PInt 1]); ("y", PHandle b);
                  ("h", PHandle a)] in
  let arg :=
    mkArgument
      (dict1 "o" (PDict [("x", dict1 "a" (PList [dict1 "h" (PInt 0); PInt 1]));
                         ("y", dict1 "h" (PInt 1));
                         ("h", dict1 "h" (PInt 2))]))
      [_channel a; _channel b; _channel a] in
  handles arg = handles_of v
  /\ wire_handles (value arg) = indices 0 (List.length (handles arg)).
Proof.
  intros a b v arg.
  pose proof (handle_indices_follow_handle_list v arg a b eq_refl eq_refl) as H.
  split; [exact (proj1 H) | exact (proj1 (proj2 H))].
Defined.

(** *** Round trip *)

Lemma float_eq_refl_finite (s : bool) (m : positive) (e : Z) :
  float_eq (S754_finite s m e) (S754_finite s m e) = true.
Proof.
  unfold float_eq, SFeqb, SFcompare.
  destruct s; rewrite Z.compare_refl, Pos.compare_refl; reflexivity.
Qed.

Lemma dict_get_distinct (d : items) (k : string) (x : pyval) :
  distinct (keys d) = true -> In (k, x) d -> dict_get d k = Some x.
Proof.
  induction d as [|[k' y] r IH]; intros Hd Hin; [destruct Hin|].
  cbn [keys map fst] in Hd. apply distinct_cons in Hd. destruct Hd as [Hn Hd].
  cbn [dict_get]. destruct Hin as [Heq|Hin].
  - inversion Heq; subst. rewrite String.eqb_refl. reflexivity.
  - destruct (String.eqb_spec k' k) as [->|Hne].
    + exfalso. apply Hn. unfold keys. apply in_map_iff.
      exists (k, x). split; [reflexivity | exact Hin].
    + apply IH; assumption.
Qed.

(** Items that agree key by key with items found in [d] are all below [d]. *)
Lemma items_le_pointwise (d : items) (vs sub : items) :
  Forall2 (fun p q => fst p = fst q /\ py_eq (snd p) (snd q) = true) vs sub ->
  (forall k x, In (k, x) sub -> dict_get d k = Some x) ->
  items_le py_eq vs d = true.
Proof.
  induction 1 as [|[k v'] [k0 x] vs sub [Hk Hv] _ IH]; intros Hsub;
    cbn [items_le]; [reflexivity|].
  cbn [fst snd] in Hk, Hv. subst k0.
  rewrite (Hsub k x) by (left; reflexivity).
  rewrite Hv. cbn [andb]. apply IH.
  intros k1 x1 Hin. apply Hsub. right. exact Hin.
Qed.

Lemma map_list_round_trip (depth : Z) (l : list pyval) :
  Forall round_trips l ->
  forallb plain l = true ->
  Forall (fun a => depth + Z.of_nat (nesting a) <= 100) l ->
  forall hs : list Channel,
  exists ws vs,
    map_list (fun a hs => serialize_value a hs depth) l hs = (Return ws, hs)
    /\ map_list_outcome parse_value ws = Return vs
    /\ list_eq py_eq vs l = true.
Proof.
  induction 1 as [|a r Ha _ IH]; intros Hp Hn hs.
  - exists [], []. repeat split.
  - cbn [forallb] in Hp. apply andb_true_iff in Hp. destruct Hp as [Hpa Hpr].
    inversion Hn as [|? ? Hna Hnr]; subst.
    destruct (Ha hs depth Hpa Hna) as [w [v' [Ew [Ev Eq]]]].
    destruct (IH Hpr Hnr hs) as [ws [vs [Ews [Evs Eqs]]]].
    exists (w :: ws), (v' :: vs). cbn [map_list map_list_outcome list_eq].
    unfold bind, ret, bind_outcome. rewrite Ew, Ews, Ev, Evs, Eq, Eqs.
    repeat split.
Qed.

Lemma map_items_round_trip (depth : Z) (d : items) :
  Forall (fun p => round_trips (snd p)) d ->
  forallb (fun p => plain (snd p)) d = true ->
  Forall (fun p => depth + Z.of_nat (nesting (snd p)) <= 100) d ->
  forall hs : list Channel,
  exists r vs,
    map_items (fun x hs => serialize_value x hs depth) d hs = (Return r, hs)
    /\ keys r = keys d
    /\ map_items_outcome parse_value r = Return vs
    /\ Forall2 (fun p q => fst p = fst q /\ py_eq (snd p) (snd q) = true) vs d.
Proof.
  induction 1 as [|[name x] t Hx _ IH]; intros Hp Hn hs.
  - exists [], []. repeat split. constructor.
  - cbn [forallb snd] in Hp. apply andb_true_iff in Hp. destruct Hp as [Hpx Hpt].
    inversion Hn as [|? ? Hnx Hnt]; subst. cbn [snd] in Hx, Hnx.
    destruct (Hx hs depth Hpx Hnx) as [w [v' [Ew [Ev Eq]]]].
    destruct (IH Hpt Hnt hs) as [r [vs [Er [Ek [Evs Eqs]]]]].
    exists ((name, w) :: r), ((name, v') :: vs).
    cbn [map_items map_items_outcome keys map fst].
    unfold bind, ret, bind_outcome. rewrite Ew, Er, Ev, Evs.
    unfold keys in Ek. rewrite Ek.
    repeat split. constructor; [split; [reflexivity | exact Eq] | exact Eqs].
Qed.

Lemma nesting_elements (depth : Z) (l : list nat) :
  depth + Z.of_nat (list_max l) <= 100 ->
  Forall (fun n => depth + Z.of_nat n <= 100) l.
Proof.
  intros H. apply Forall_forall. intros n Hin.
  assert (Hle : (list_max l <= list_max l)%nat) by lia.
  apply list_max_le in Hle. rewrite Forall_forall in Hle.
  specialize (Hle n Hin). lia.
Qed.

Lemma serialize_value_round_trips (v : pyval) : round_trips v.
Proof.
  induction v as [| b | z | f | s | dt | l IH | d IH | j | i]
    using pyval_nested_ind; intros hs depth Hp Hn; try discriminate Hp;
    cbn [nesting] in Hn.
  - exists (PBool b), (PBool b). cbn.
    destruct (Z.ltb_spec 100 depth); [lia|].
    repeat split. destruct b; reflexivity.
  - exists (PInt z), (PInt z). cbn.
    destruct (Z.ltb_spec 100 depth); [lia|].
    repeat split. apply Z.eqb_refl.
  - destruct f as [sg | sg | | sg m e]; try discriminate Hp.
    + exists (dict1 "v" (PStr "-0")), (PFloat neg_zero). cbn.
      destruct (Z.ltb_spec 100 depth); [lia|].
      destruct sg; repeat split.
    + exists (PFloat (S754_finite sg m e)), (PFloat (S754_finite sg m e)).
      rewrite serialize_value_finite_nonzero by lia.
      repeat split. cbn [py_eq as_num num_eq]. apply float_eq_refl_finite.
  - exists (PStr s), (PStr s). cbn.
    destruct (Z.ltb_spec 100 depth); [lia|].
    repeat split. apply String.eqb_refl.
  - assert (Hd : depth <= 100) by lia.
    cbn [plain] in Hp.
    apply nesting_elements in Hn. rewrite Forall_map in Hn.
    assert (Hn' : Forall
                    (fun a => depth + 1 + Z.of_nat (nesting a) <= 100) l).
    { eapply Forall_impl; [|exact Hn]. cbn beta. intros a Ha. lia. }
    destruct (map_list_round_trip (depth + 1) l IH Hp Hn' hs)
      as [ws [vs [Ews [Evs Eqs]]]].
    exists (dict1 "a" (PList ws)), (PList vs).
    rewrite serialize_value_list by assumption. rewrite Ews.
    split; [reflexivity|]. split.
    + cbn. unfold bind_outcome.
      change (map_list_outcome _ ws) with (map_list_outcome parse_value ws).
      rewrite Evs. reflexivity.
    + cbn [py_eq as_num]. exact Eqs.
  - assert (Hd : depth <= 100) by lia.
    cbn [plain] in Hp. apply andb_true_iff in Hp. destruct Hp as [Hk Hp].
    apply nesting_elements in Hn. rewrite Forall_map in Hn.
    assert (Hn' : Forall
                    (fun p => depth + 1 + Z.of_nat (nesting (snd p)) <= 100) d).
    { eapply Forall_impl; [|exact Hn]. cbn beta. intros a Ha. lia. }
    destruct (map_items_round_trip (depth + 1) d IH Hp Hn' hs)
      as [r [vs [Er [Ekr [Evs Eqs]]]]].
    exists (dict1 "o" (PDict r)), (PDict vs).
    rewrite serialize_value_dict by assumption. rewrite Er.
    split; [reflexivity|]. split.
    + cbn. unfold bind_outcome.
      change (for_items_outcome _ r []) with (for_items_outcome parse_value r []).
      rewrite for_items_outcome_distinct
        by (rewrite ?Ekr; assumption || (intros k _ [])).
      rewrite Evs. reflexivity.
    + cbn [py_eq as_num].
      rewrite (Forall2_length Eqs), Nat.eqb_refl. cbn [andb].
      apply (items_le_pointwise d vs d Eqs).
      intros k x Hin. apply dict_get_distinct; assumption.
Qed.

(** C1, within the depth ceiling. For every value made only of booleans,
    finite numbers, strings, lists and string-keyed dicts in which no node
    lies under more than 100 containers, serialize_value(v, handles, 0)
    returns without raising and leaves the handle list as it was, and
    parse_value of what it returned is a value v' with v' == v. *)
Theorem round_trip_within_ceiling :
  forall (v : pyval) (hs : list Channel),
    plain v = true ->
    (nesting v <= 100)%nat ->
    exists w v',
      serialize_value v hs 0 = (Return w, hs)
      /\ parse_value w = Return v'
      /\ py_eq v' v = true.
Proof.
  intros v hs Hp Hn. apply serialize_value_round_trips; [assumption | lia].
Qed.

Lemma round_trip_within_ceiling_witness :
  exists w v',
    serialize_value
      (PDict [("a", PList [PInt 1; PStr "x"; PFloat pos_zero; PBool true])])
      [] 0 = (Return w, [])
    /\ parse_value w = Return v'
    /\ py_eq v'
         (PDict [("a", PList [PInt 1; PStr "x"; PFloat pos_zero; PBool true])])
       = true.
Proof.
  apply (round_trip_within_ceiling
           (PDict [("a", PList [PInt 1; PStr "x"; PFloat pos_zero; PBool true])])
           []).
  - reflexivity.
  - cbn. lia.
Defined.

(** C1, as stated, fails: the integer 0 under 101 lists is made only of
    lists and a number, and encoding it raises, so there is nothing to
    decode. *)
Lemma round_trip_counterexample :
  plain (nest 101 (PInt 0)) = true
  /\ serialize_value (nest 101 (PInt 0)) [] 0 = (Raise depth_error, [])
  /\ ~ (exists w v',
          serialize_value (nest 101 (PInt 0)) [] 0 = (Return w, [])
          /\ parse_value w = Return v'
          /\ py_eq v' (nest 101 (PInt 0)) = true).
Proof.
  assert (E : serialize_value (nest 101 (PInt 0)) [] 0 = (Raise depth_error, []))
    by (vm_compute; reflexivity).
  split; [vm_compute; reflexivity|]. split; [exact E|].
  intros [w [v' [H _]]]. rewrite E in H. discriminate H.
Qed.

(** *** Timestamps *)

Lemma digit_cases (a : Z) : 0 <= a < 10 ->
  a = 0 \/ a = 1 \/ a = 2 \/ a = 3 \/ a = 4 \/ a = 5 \/ a = 6 \/ a = 7 \/ a = 8 \/ a = 9.
Proof. lia. Qed.

Ltac each_digit a H :=
  apply digit_cases in H;
  repeat (destruct H as [H|H]; [subst a; reflexivity|]); subst a; reflexivity.

Lemma digit_val_digit (a : Z) : 0 <= a < 10 -> digit_val (digit a) = Some a.
Proof. intros H. each_digit a H. Qed.

Lemma digit_not_sep (a : Z) (c : ascii) : 0 <= a < 10 -> digit_val c = None -> Ascii.eqb (digit a) c = false.
Proof.
  intros H Hc. destruct (Ascii.eqb_spec (digit a) c) as [<-|]; [|reflexivity].
  rewrite digit_val_digit in Hc by assumption. discriminate.
Qed.

Lemma int_of_digits2 n : 0 <= n < 100 -> int_of (digits 2 n) = Some n.
Proof.
  intros H. cbn [digits append int_of int_acc].
  rewrite !digit_val_digit by (apply Z.mod_pos_bound; lia).
  f_equal. Z.to_euclidean_division_equations. lia.
Qed.
Lemma int_of_digits4 n : 0 <= n < 10000 -> int_of (digits 4 n) = Some n.
Proof.
  intros H. cbn [digits append int_of int_acc].
  rewrite !digit_val_digit by (apply Z.mod_pos_bound; lia).
  f_equal. Z.to_euclidean_division_equations. lia.
Qed.
Lemma int_of_digits6 n : 0 <= n < 1000000 -> int_of (digits 6 n) = Some n.
Proof.
  intros H. cbn [digits append int_of int_acc].
  rewrite !digit_val_digit by (apply Z.mod_pos_bound; lia).
  f_equal. Z.to_euclidean_division_equations. lia.
Qed.

Lemma parse_date_digits (y m d : Z) (rest : string) :
  0 <= y < 10000 -> 0 <= m < 100 -> 0 <= d < 100 ->
  parse_isoformat_date
    (slice 0 10 (digits 4 y ++ "-" ++ digits 2 m ++ "-" ++ digits 2 d ++ rest))
  = Some (y, m, d).
Proof.
  intros Hy Hm Hd. unfold parse_isoformat_date.
  change (slice 0 4 (slice 0 10 (digits 4 y ++ "-" ++ digits 2 m ++ "-" ++ digits 2 d ++ rest)))
    with (digits 4 y).
  change (slice 5 7 (slice 0 10 (digits 4 y ++ "-" ++ digits 2 m ++ "-" ++ digits 2 d ++ rest)))
    with (digits 2 m).
  change (slice 8 10 (slice 0 10 (digits 4 y ++ "-" ++ digits 2 m ++ "-" ++ digits 2 d ++ rest)))
    with (digits 2 d).
  rewrite int_of_digits4, !int_of_digits2 by assumption.
  reflexivity.
Qed.


(** Slices of an append. *)
Lemma append_nil_r (a : string) : a ++ "" = a.
Proof. induction a as [|c a IH]; cbn; [reflexivity | rewrite IH; reflexivity]. Qed.

Lemma length_append (a b : string) :
  String.length (a ++ b) = (String.length a + String.length b)%nat.
Proof. induction a as [|c a IH]; cbn; [reflexivity | rewrite IH; reflexivity]. Qed.

Lemma take_length_append (a b : string) : take (String.length a) (a ++ b) = a.
Proof. induction a as [|c a IH]; cbn; [destruct b; reflexivity | rewrite IH; reflexivity]. Qed.

Lemma drop_length_append (a b : string) : drop (String.length a) (a ++ b) = b.
Proof. induction a as [|c a IH]; cbn; [destruct b; reflexivity | exact IH]. Qed.

Lemma get_length_append (a b : string) (c : ascii) :
  String.get (String.length a) (a ++ String c b) = Some c.
Proof. induction a as [|x a IH]; cbn; [reflexivity | exact IH]. Qed.

Lemma length_digits (w : nat) (n : Z) : String.length (digits w n) = w.
Proof.
  revert n. induction w as [|w IH]; intros n; cbn [digits]; [reflexivity|].
  rewrite length_append, IH. cbn. lia.
Qed.

(** Where a character is found. *)
Lemma find_lower (c : ascii) (s : string) : -1 <= find c s.
Proof.
  induction s as [|a r IH]; cbn [find]; [lia|].
  destruct (Ascii.eqb a c); [lia|]. cbv zeta.
  destruct (Z.ltb_spec (find c r) 0); lia.
Qed.

Lemma absent_nil (c : ascii) : absent c "".
Proof. reflexivity. Qed.

Lemma absent_cons (c a : ascii) (r : string) :
  Ascii.eqb a c = false -> absent c r -> absent c (String a r).
Proof. unfold absent. intros Ha Hr. cbn [find]. rewrite Ha, Hr. reflexivity. Qed.

Lemma absent_append (c : ascii) (a b : string) :
  absent c a -> absent c b -> absent c (a ++ b).
Proof.
  unfold absent. induction a as [|x a IH]; intros Ha Hb; cbn [append]; [exact Hb|].
  cbn [find] in *. destruct (Ascii.eqb x c); [discriminate|]. cbv zeta in *.
  destruct (Z.ltb_spec (find c a) 0) as [Hlt|Hge].
  - rewrite IH; [reflexivity | | exact Hb]. pose proof (find_lower c a). lia.
  - pose proof (find_lower c a). lia.
Qed.

Lemma absent_digits (c : ascii) (w : nat) (n : Z) :
  digit_val c = None -> absent c (digits w n).
Proof.
  intros Hc. revert n. induction w as [|w IH]; intros n; cbn [digits].
  - apply absent_nil.
  - apply absent_append; [apply IH|].
    apply absent_cons; [|apply absent_nil].
    apply digit_not_sep; [apply Z.mod_pos_bound; lia | exact Hc].
Qed.

Lemma find_after_absent (c : ascii) (a b : string) :
  absent c a -> find c (a ++ String c b) = Z.of_nat (String.length a).
Proof.
  unfold absent. induction a as [|x a IH]; intros Ha; cbn [append find String.length].
  - rewrite Ascii.eqb_refl. reflexivity.
  - cbn [find] in Ha. destruct (Ascii.eqb x c); [discriminate|]. cbv zeta in *.
    destruct (Z.ltb_spec (find c a) 0) as [Hlt|Hge].
    + rewrite IH by (pose proof (find_lower c a); lia).
      destruct (Z.ltb_spec (Z.of_nat (String.length a)) 0); lia.
    + lia.
Qed.

(** Parsing what [isoformat] writes. *)
Lemma take2_digits (x : Z) (r : string) : take 2 (digits 2 x ++ r) = digits 2 x.
Proof. reflexivity. Qed.

Lemma drop2_digits (x : Z) (r : string) : drop 2 (digits 2 x ++ r) = r.
Proof. reflexivity. Qed.

Lemma long_digits (x : Z) (r : string) :
  (String.length (digits 2 x ++ r) <? 2)%nat = false.
Proof. reflexivity. Qed.

Lemma parse_hh_mm_ss_S (k : nat) (tstr : string) :
  parse_hh_mm_ss (S k) tstr
  = if (String.length tstr <? 2)%nat then None
    else
      match int_of (take 2 tstr) with
      | None => None
      | Some x =>
          match drop 2 tstr, k with
          | "", _ => Some ([x], "")
          | rest, O => Some ([x], rest)
          | String c rest, _ =>
              if Ascii.eqb c ":" then
                match parse_hh_mm_ss k rest with
                | Some (xs, after) => Some (x :: xs, after)
                | None => None
                end
              else None
          end
      end.
Proof. destruct k; reflexivity. Qed.

Lemma parse_hh_mm_ss_more (k : nat) (x : Z) (rest : string) :
  0 <= x < 100 ->
  parse_hh_mm_ss (S (S k)) (digits 2 x ++ String ":" rest)
  = match parse_hh_mm_ss (S k) rest with
    | Some (xs, after) => Some (x :: xs, after)
    | None => None
    end.
Proof.
  intros Hx. rewrite (parse_hh_mm_ss_S (S k)).
  rewrite long_digits, take2_digits, drop2_digits, int_of_digits2 by assumption.
  reflexivity.
Qed.

Lemma parse_hh_mm_ss_end (k : nat) (x : Z) :
  0 <= x < 100 -> parse_hh_mm_ss (S k) (digits 2 x) = Some ([x], "").
Proof.
  intros Hx. rewrite <- (append_nil_r (digits 2 x)) at 1.
  rewrite parse_hh_mm_ss_S.
  rewrite long_digits, take2_digits, drop2_digits, int_of_digits2 by assumption.
  reflexivity.
Qed.

Lemma parse_hh_mm_ss_last (x : Z) (rest : string) :
  0 <= x < 100 -> parse_hh_mm_ss 1 (digits 2 x ++ rest) = Some ([x], rest).
Proof.
  intros Hx. rewrite parse_hh_mm_ss_S.
  rewrite long_digits, take2_digits, drop2_digits, int_of_digits2 by assumption.
  destruct rest; reflexivity.
Qed.

(** [HH:MM:SS[.ffffff]] *)
Lemma parse_format_time (hh mm ss us : Z) :
  0 <= hh < 100 -> 0 <= mm < 100 -> 0 <= ss < 100 -> 0 <= us < 1000000 ->
  parse_hh_mm_ss_ff (format_time hh mm ss us) = Some (hh, mm, ss, us).
Proof.
  intros Hh Hm Hs Hu. unfold parse_hh_mm_ss_ff, format_time. cbn [append].
  rewrite !parse_hh_mm_ss_more, parse_hh_mm_ss_last by assumption.
  cbn [nth]. destruct (Z.eqb_spec us 0) as [->|Hne]; [reflexivity|].
  cbn [append Ascii.eqb Bool.eqb]. rewrite length_digits, int_of_digits6 by assumption.
  reflexivity.
Qed.

Lemma drop_past_append (a b : string) (c : ascii) :
  drop (S (String.length a)) (a ++ String c b) = b.
Proof. induction a as [|x a IH]; cbn; [destruct b; reflexivity | exact IH]. Qed.

Lemma tz_pos_found (t b : string) (sg : ascii) :
  absent "-" t -> absent "+" t ->
  sg = "-"%char \/ (sg = "+"%char /\ absent "-" b) ->
  (if find "-" (t ++ String sg b) + 1 =? 0
   then find "+" (t ++ String sg b) + 1
   else find "-" (t ++ String sg b) + 1)
  = Z.of_nat (String.length t) + 1.
Proof.
  intros Hm Hp [->|[-> Hb]].
  - rewrite find_after_absent by assumption.
    destruct (Z.eqb_spec (Z.of_nat (String.length t) + 1) 0); [lia | reflexivity].
  - assert (H : absent "-" (t ++ String "+" b)).
    { apply absent_append; [assumption|]. apply absent_cons; [reflexivity | assumption]. }
    unfold absent in H. rewrite H. change (-1 + 1 =? 0) with true. cbv iota.
    rewrite find_after_absent by assumption. reflexivity.
Qed.

Lemma parse_isoformat_time_naive (t : string) :
  absent "-" t -> absent "+" t -> (2 <= String.length t)%nat ->
  parse_isoformat_time t
  = match parse_hh_mm_ss_ff t with
    | None => None
    | Some (hh, mm, ss, us) => Some (hh, mm, ss, us, None)
    end.
Proof.
  unfold absent. intros Hm Hp Hl. unfold parse_isoformat_time.
  destruct (Nat.ltb_spec (String.length t) 2); [lia|].
  rewrite Hm, Hp. change (-1 + 1) with 0.
  change (0 =? 0) with true. cbv iota zeta.
  change (0 <? 0) with false. cbv iota.
  destruct (parse_hh_mm_ss_ff t) as [[[[hh mm] ss] us]|]; reflexivity.
Qed.

Lemma parse_isoformat_time_aware (t b : string) (sg : ascii) :
  absent "-" t -> absent "+" t ->
  sg = "-"%char \/ (sg = "+"%char /\ absent "-" b) ->
  (String.length b = 5 \/ String.length b = 8 \/ String.length b = 15)%nat ->
  parse_isoformat_time (t ++ String sg b)
  = time_with_zone t (if Ascii.eqb sg "-" then -1 else 1) b.
Proof.
  intros Hm Hp Hsg Hb. unfold parse_isoformat_time, time_with_zone.
  rewrite tz_pos_found by assumption.
  destruct (Nat.ltb_spec (String.length (t ++ String sg b)) 2) as [Hlt|_].
  { rewrite length_append in Hlt. cbn [String.length] in Hlt. lia. }
  destruct (Z.ltb_spec 0 (Z.of_nat (String.length t) + 1)) as [_|]; [|lia].
  replace (Z.to_nat (Z.of_nat (String.length t) + 1 - 1)) with (String.length t) by lia.
  replace (Z.to_nat (Z.of_nat (String.length t) + 1)) with (S (String.length t)) by lia.
  rewrite take_length_append, drop_past_append, get_length_append.
  destruct (parse_hh_mm_ss_ff t) as [[[[hh mm] ss] us]|]; [|reflexivity].
  assert (Hn : ((String.length b =? 5) || (String.length b =? 8)
                || (String.length b =? 15))%nat = true).
  { destruct Hb as [->|[->| ->]]; reflexivity. }
  rewrite Hn. reflexivity.
Qed.

Lemma format_offset_aware (o : Z) :
  format_offset (Some o)
  = String (if o <? 0 then "-"%char else "+"%char)
      (offset_text (Z.abs o / 3600000000)
         ((Z.abs o mod 3600000000) / 60000000)
         ((Z.abs o mod 3600000000) mod 60000000)).
Proof. unfold format_offset. destruct (o <? 0); reflexivity. Qed.

Lemma parse_offset_text (hh mm ss : Z) :
  0 <= hh < 100 -> 0 <= mm < 100 -> 0 <= ss < 60000000 ->
  parse_hh_mm_ss_ff (offset_text hh mm ss)
  = Some (hh, mm, ss / 1000000, ss mod 1000000).
Proof.
  intros Hh Hm Hs. unfold parse_hh_mm_ss_ff, offset_text. cbn [append].
  destruct (Z.eqb_spec ss 0) as [->|Hne].
  - rewrite append_nil_r, parse_hh_mm_ss_more, parse_hh_mm_ss_end by assumption.
    reflexivity.
  - assert (H1 : 0 <= ss / 1000000 < 100)
      by (Z.to_euclidean_division_equations; lia).
    assert (H2 : 0 <= ss mod 1000000 < 1000000)
      by (apply Z.mod_pos_bound; lia).
    cbn [append].
    rewrite !parse_hh_mm_ss_more, parse_hh_mm_ss_last by assumption.
    cbn [nth]. destruct (Z.eqb_spec (ss mod 1000000) 0) as [->|Hne'];
      [reflexivity|].
    cbn [append Ascii.eqb Bool.eqb].
    rewrite length_digits, int_of_digits6 by assumption. reflexivity.
Qed.

Lemma length_offset_text (hh mm ss : Z) :
  (String.length (offset_text hh mm ss) = 5
   \/ String.length (offset_text hh mm ss) = 8
   \/ String.length (offset_text hh mm ss) = 15)%nat.
Proof.
  unfold offset_text.
  destruct (ss =? 0); [left; reflexivity|].
  destruct (ss mod 1000000 =? 0); [right; left | right; right]; reflexivity.
Qed.

Lemma absent_offset_text (c : ascii) (hh mm ss : Z) :
  digit_val c = None -> Ascii.eqb ":" c = false -> Ascii.eqb "." c = false ->
  absent c (offset_text hh mm ss).
Proof.
  intros Hc H1 H2. unfold offset_text.
  destruct (ss =? 0); [|destruct (ss mod 1000000 =? 0)]; cbn [append];
    repeat first [ simple apply absent_digits; assumption
                 | simple apply absent_nil
                 | simple apply absent_cons; [assumption|]
                 | simple apply absent_append ].
Qed.

Lemma absent_format_time (c : ascii) (hh mm ss us : Z) :
  digit_val c = None -> Ascii.eqb ":" c = false -> Ascii.eqb "." c = false ->
  absent c (format_time hh mm ss us).
Proof.
  intros Hc H1 H2. unfold format_time.
  destruct (us =? 0); cbn [append];
    repeat first [ simple apply absent_digits; assumption
                 | simple apply absent_nil
                 | simple apply absent_cons; [assumption|]
                 | simple apply absent_append ].
Qed.

Lemma length_format_time (hh mm ss us : Z) :
  (2 <= String.length (format_time hh mm ss us))%nat.
Proof. unfold format_time. cbn. lia. Qed.

Lemma parse_time_and_zone (hh mm ss us : Z) (off : option Z) :
  0 <= hh < 100 -> 0 <= mm < 100 -> 0 <= ss < 100 -> 0 <= us < 1000000 ->
  match off with
  | None => True
  | Some o => -86400000000 < o < 86400000000
  end ->
  parse_isoformat_time (format_time hh mm ss us ++ format_offset off)
  = Some (hh, mm, ss, us, off).
Proof.
  intros Hh Hm Hs Hu Ho.
  assert (Am : absent "-" (format_time hh mm ss us))
    by (apply absent_format_time; reflexivity).
  assert (Ap : absent "+" (format_time hh mm ss us))
    by (apply absent_format_time; reflexivity).
  destruct off as [o|].
  - rewrite format_offset_aware.
    set (a := Z.abs o) in *.
    set (th := a / 3600000000). set (tm := (a mod 3600000000) / 60000000).
    set (ts := (a mod 3600000000) mod 60000000).
    assert (Ha : 0 <= a < 86400000000) by (unfold a; lia).
    assert (Hth : 0 <= th < 100)
      by (unfold th; Z.to_euclidean_division_equations; lia).
    assert (Htm : 0 <= tm < 100)
      by (unfold tm; Z.to_euclidean_division_equations; lia).
    assert (Hts : 0 <= ts < 60000000)
      by (unfold ts; apply Z.mod_pos_bound; lia).
    rewrite parse_isoformat_time_aware.
    + unfold time_with_zone.
      rewrite parse_format_time, parse_offset_text by assumption.
      assert (Hsum : ((th * 60 + tm) * 60 + ts / 1000000) * 1000000
                     + ts mod 1000000 = a)
        by (unfold th, tm, ts; Z.to_euclidean_division_equations; lia).
      destruct ((th =? 0) && (tm =? 0) && (ts / 1000000 =? 0)
                && (ts mod 1000000 =? 0)) eqn:Ez.
      * rewrite !andb_true_iff, !Z.eqb_eq in Ez.
        destruct Ez as [[[E1 E2] E3] E4]. rewrite E1, E2, E3, E4 in Hsum.
        do 5 f_equal. unfold a in Hsum. lia.
      * rewrite Hsum. do 5 f_equal. unfold a.
        destruct (Z.ltb_spec o 0); cbn [Ascii.eqb Bool.eqb]; lia.
    + exact Am.
    + exact Ap.
    + destruct (o <? 0); [left; reflexivity|]. right.
      split; [reflexivity | apply absent_offset_text; reflexivity].
    + apply length_offset_text.
  - cbn [format_offset]. rewrite append_nil_r.
    rewrite parse_isoformat_time_naive by (assumption || apply length_format_time).
    rewrite parse_format_time by assumption. reflexivity.
Qed.

Lemma valid_datetime_bounds (d : datetime) :
  valid_datetime d = true ->
  1 <= year d <= 9999 /\ 1 <= month d <= 12
  /\ 1 <= day d <= days_in_month (year d) (month d)
  /\ 0 <= hour d <= 23 /\ 0 <= minute d <= 59 /\ 0 <= second d <= 59
  /\ 0 <= microsecond d <= 999999
  /\ match utcoffset d with
     | None => True
     | Some o => -86400000000 < o < 86400000000
     end.
Proof.
  unfold valid_datetime. rewrite !andb_true_iff, !Z.leb_le.
  intros H. repeat match type of H with _ /\ _ => destruct H as [H ?] end.
  repeat split; try assumption.
  destruct (utcoffset d) as [o|]; [|exact I].
  match goal with
  | E : _ && _ = true |- _ => apply andb_true_iff in E; destruct E as [E1 E2]
  end.
  apply Z.ltb_lt in E1, E2. lia.
Qed.

Lemma days_in_month_bound (y m : Z) : days_in_month y m <= 31.
Proof.
  unfold days_in_month.
  repeat match goal with |- context [if ?b then _ else _] => destruct b end; lia.
Qed.

Lemma fromisoformat_isoformat (d : datetime) :
  valid_datetime d = true -> fromisoformat (isoformat d) = Return d.
Proof.
  intros Hv. pose proof (valid_datetime_bounds d Hv) as B.
  destruct B as [Hy [Hm [Hd [Hh [Hmi [Hs [Hu Ho]]]]]]].
  pose proof (days_in_month_bound (year d) (month d)) as Hdm.
  unfold fromisoformat, isoformat.
  rewrite parse_date_digits by lia.
  change (drop 11 (digits 4 (year d) ++ "-" ++ digits 2 (month d) ++ "-"
                   ++ digits 2 (day d) ++ "T"
                   ++ format_time (hour d) (minute d) (second d) (microsecond d)
                   ++ format_offset (utcoffset d)))
    with (format_time (hour d) (minute d) (second d) (microsecond d)
          ++ format_offset (utcoffset d)).
  rewrite parse_time_and_zone by (lia || assumption).
  change (match format_time (hour d) (minute d) (second d) (microsecond d)
                ++ format_offset (utcoffset d)
          with "" => Some (0, 0, 0, 0, None) | String _ _ => ?x end)
    with x.
  destruct d; cbn [year month day hour minute second microsecond utcoffset] in *.
  rewrite Hv. reflexivity.
Qed.

Lemma drop_last_append_char (s : string) (c : ascii) :
  drop_last (s ++ String c "") = s.
Proof.
  unfold drop_last. rewrite length_append. cbn [String.length].
  replace (String.length s + 1 - 1)%nat with (String.length s) by lia.
  apply take_length_append.
Qed.

(** The decoder on a date-tag node: the last character goes, the rest is
    read by fromisoformat. *)
Lemma parse_value_date_tag (s : string) :
  parse_value (dict1 "d" (PStr s))
  = match fromisoformat (drop_last s) with
    | Return dt => Return (PDatetime dt)
    | Raise e => Raise e
    end.
Proof. reflexivity. Qed.

(** C4, where the code departs from it. 12:30:05.000017 at UTC+02:00 is not
    re-expressed in UTC: the encoder writes its local time and its offset
    and then the Z it appends, 2020-01-02T12:30:05.000017+02:00Z, where the
    same instant in UTC reads 2020-01-02T10:30:05.000017; and what the
    decoder gives back has the offset of two hours, not zero. *)
Theorem serialize_value_aware_timestamp :
  let dt := mkDatetime 2020 1 2 12 30 5 17 (Some 7200000000) in
  let utc := mkDatetime 2020 1 2 10 30 5 17 (Some 0) in
  serialize_value (PDatetime dt) [] 0
  = (Return (dict1 "d" (PStr "2020-01-02T12:30:05.000017+02:00Z")), [])
  /\ instant utc = instant dt
  /\ parse_value (dict1 "d" (PStr "2020-01-02T12:30:05.000017+02:00Z"))
     = Return (PDatetime dt)
  /\ utcoffset dt <> Some 0
  /\ ~ (exists s dt',
          serialize_value (PDatetime dt) [] 0 = (Return (dict1 "d" (PStr s)), [])
          /\ parse_value (dict1 "d" (PStr s)) = Return (PDatetime dt')
          /\ utcoffset dt' = Some 0).
Proof.
  intros dt utc.
  assert (E1 : serialize_value (PDatetime dt) [] 0
               = (Return (dict1 "d" (PStr "2020-01-02T12:30:05.000017+02:00Z")),
                  [])) by (vm_compute; reflexivity).
  assert (E2 : parse_value (dict1 "d" (PStr "2020-01-02T12:30:05.000017+02:00Z"))
               = Return (PDatetime dt)) by (vm_compute; reflexivity).
  split; [exact E1|]. split; [vm_compute; reflexivity|]. split; [exact E2|].
  split; [discriminate|].
  intros [s [dt' [Hs [Hp Ho]]]]. rewrite E1 in Hs.
  inversion Hs; subst s. rewrite E2 in Hp. inversion Hp; subst dt'.
  discriminate Ho.
Qed.

(** What [is_primitive_value] lets through is returned as it is, the floats
    that have a sentinel apart. *)
Lemma serialize_value_primitive (v : pyval) (hs : list Channel) (depth : Z) :
  depth <= 100 ->
  is_primitive_value v = true ->
  (forall f, v = PFloat f ->
     float_eq f inf = false /\ float_eq f neg_inf = false
     /\ float_eq f neg_zero = false /\ isnan f = false) ->
  serialize_value v hs depth = (Return v, hs).
Proof.
  intros Hd Hp Hf. destruct v; try discriminate Hp; cbn [serialize_value];
    (destruct (Z.ltb_spec 100 depth); [lia|]); try reflexivity.
  destruct (Hf f eq_refl) as [H1 [H2 [H3 H4]]]. rewrite H1, H2, H3, H4.
  reflexivity.
Qed.

(** *** The ceiling is the only way to fail *)

Lemma map_list_raises (depth : Z) (l : list pyval) :
  Forall raises_only_depth_error l ->
  forall hs e hs',
    map_list (fun a hs => serialize_value a hs depth) l hs = (Raise e, hs') ->
    e = depth_error.
Proof.
  induction 1 as [|a r Ha _ IH]; intros hs e hs' Hrun;
    cbn [map_list] in Hrun; unfold bind, ret in Hrun; [discriminate|].
  destruct (serialize_value a hs depth) as [[w|e1] hs1] eqn:Ea.
  - destruct (map_list _ r hs1) as [[ws|e2] hs2] eqn:Er; [discriminate|].
    inversion Hrun; subst. eapply IH. exact Er.
  - inversion Hrun; subst. eapply Ha. exact Ea.
Qed.

Lemma for_items_raises (depth : Z) (d : items) :
  Forall (fun p => raises_only_depth_error (snd p)) d ->
  forall acc hs e hs',
    for_items (fun x hs => serialize_value x hs depth) d acc hs = (Raise e, hs') ->
    e = depth_error.
Proof.
  induction 1 as [|[name x] t Hx _ IH]; intros acc hs e hs' Hrun;
    cbn [for_items] in Hrun; unfold bind, ret in Hrun; [discriminate|].
  cbn [snd] in Hx.
  destruct (serialize_value x hs depth) as [[w|e1] hs1] eqn:Ex.
  - eapply IH. exact Hrun.
  - inversion Hrun; subst. eapply Hx. exact Ex.
Qed.

Lemma serialize_value_raises (v : pyval) : raises_only_depth_error v.
Proof.
  induction v as [| b | z | f | s | dt | l IH | d IH | j | i]
    using pyval_nested_ind; intros hs depth e hs' Hrun;
    cbn [serialize_value] in Hrun; unfold raise, ret, bind in Hrun;
    try (destruct (100 <? depth); [inversion Hrun; reflexivity|]);
    try (repeat match type of Hrun with
                | context [if ?b then _ else _] => destruct b
                end; discriminate).
  - destruct (map_list _ l hs) as [[ws|e1] hs1] eqn:El; [discriminate|].
    inversion Hrun; subst. eapply map_list_raises; [exact IH | exact El].
  - destruct (for_items _ d [] hs) as [[r|e1] hs1] eqn:Ed; [discriminate|].
    inversion Hrun; subst. eapply for_items_raises; [exact IH | exact Ed].
Qed.

Lemma map_list_beyond_ceiling (depth : Z) (l : list pyval) :
  Forall fails_beyond_ceiling l ->
  forallb plain l = true ->
  100 < depth + Z.of_nat (list_max (map (fun a => S (nesting a)) l)) ->
  depth <= 100 ->
  forall hs, exists hs',
    map_list (fun a hs => serialize_value a hs (depth + 1)) l hs
    = (Raise depth_error, hs').
Proof.
  induction 1 as [|a r Ha _ IH]; intros Hp Hn Hd hs.
  - cbn in Hn. lia.
  - cbn [forallb] in Hp. apply andb_true_iff in Hp. destruct Hp as [Hpa Hpr].
    cbn [map list_max fold_right] in Hn. fold (list_max (map (fun a => S (nesting a)) r)) in Hn.
    cbn [map_list]. unfold bind, ret.
    destruct (serialize_value a hs (depth + 1)) as [[w|e] hs1] eqn:Ea.
    + destruct (Z.lt_ge_cases 100 (depth + 1 + Z.of_nat (nesting a))) as [Hdeep|Hok].
      * destruct (Ha hs (depth + 1) Hpa Hdeep) as [hs2 E2].
        rewrite E2 in Ea. discriminate.
      * destruct (IH Hpr) with (hs := hs1) as [hs2 E2]; [lia | assumption|].
        rewrite E2. eexists; reflexivity.
    + apply serialize_value_raises in Ea. subst e. eexists; reflexivity.
Qed.

Lemma map_items_beyond_ceiling (depth : Z) (d : items) :
  Forall (fun p => fails_beyond_ceiling (snd p)) d ->
  forallb (fun p => plain (snd p)) d = true ->
  100 < depth + Z.of_nat (list_max (map (fun p => S (nesting (snd p))) d)) ->
  depth <= 100 ->
  forall hs, exists hs',
    map_items (fun x hs => serialize_value x hs (depth + 1)) d hs
    = (Raise depth_error, hs').
Proof.
  induction 1 as [|[name x] t Hx _ IH]; intros Hp Hn Hd hs.
  - cbn in Hn. lia.
  - cbn [forallb snd] in Hp. apply andb_true_iff in Hp. destruct Hp as [Hpx Hpt].
    cbn [map list_max fold_right snd] in Hn.
    fold (list_max (map (fun p => S (nesting (snd p))) t)) in Hn.
    cbn [snd] in Hx. cbn [map_items]. unfold bind, ret.
    destruct (serialize_value x hs (depth + 1)) as [[w|e] hs1] eqn:Ex.
    + destruct (Z.lt_ge_cases 100 (depth + 1 + Z.of_nat (nesting x))) as [Hdeep|Hok].
      * destruct (Hx hs (depth + 1) Hpx Hdeep) as [hs2 E2].
        rewrite E2 in Ex. discriminate.
      * destruct (IH Hpt) with (hs := hs1) as [hs2 E2]; [lia | assumption|].
        rewrite E2. eexists; reflexivity.
    + apply serialize_value_raises in Ex. subst e. eexists; reflexivity.
Qed.

(** A plain value with a node under more than [100 - depth] containers
    makes the encoder raise: the bound of the round trip cannot be
    relaxed. *)
Lemma serialize_value_beyond_ceiling (v : pyval) : fails_beyond_ceiling v.
Proof.
  induction v as [| b | z | f | s | dt | l IH | d IH | j | i]
    using pyval_nested_ind; intros hs depth Hp Hn; try discriminate Hp;
    try (cbn [nesting] in Hn; exists hs;
         apply serialize_value_above_ceiling; [reflexivity | lia]).
  - destruct (Z.le_gt_cases depth 100) as [Hd|Hd].
    + cbn [plain nesting] in Hp, Hn.
      destruct (map_list_beyond_ceiling depth l IH Hp Hn Hd hs) as [hs' E].
      rewrite serialize_value_list, E by assumption. eexists; reflexivity.
    + exists hs. apply serialize_value_above_ceiling; [reflexivity | lia].
  - destruct (Z.le_gt_cases depth 100) as [Hd|Hd].
    + cbn [plain nesting] in Hp, Hn. apply andb_true_iff in Hp.
      destruct Hp as [Hk Hp].
      destruct (map_items_beyond_ceiling depth d IH Hp Hn Hd hs) as [hs' E].
      rewrite serialize_value_dict, E by assumption. eexists; reflexivity.
    + exists hs. apply serialize_value_above_ceiling; [reflexivity | lia].
Qed.

(** ** Further properties of the encoder *)

(** *** The handle list only grows *)

Lemma map_list_appends (depth : Z) (l : list pyval) :
  Forall appends_only l ->
  forall hs, exists added rest,
    snd (map_list (fun a hs => serialize_value a hs depth) l hs)
    = (hs ++ added)%list
    /\ flat_map handles_of l = (added ++ rest)%list
    /\ (forall ws,
          fst (map_list (fun a hs => serialize_value a hs depth) l hs)
          = Return ws -> rest = []).
Proof.
  induction 1 as [|a r Ha _ IH]; intros hs.
  - exists [], []. cbn. rewrite app_nil_r. repeat split.
  - destruct (Ha hs depth) as [add1 [rest1 [E1 [F1 R1]]]].
    cbn [map_list flat_map]. unfold bind, ret.
    destruct (serialize_value a hs depth) as [[w|e] hs1] eqn:Ea;
      cbn [fst snd] in E1, R1.
    + specialize (R1 w eq_refl). subst rest1 hs1. rewrite app_nil_r in F1.
      destruct (IH (hs ++ add1)%list) as [add2 [rest2 [E2 [F2 R2]]]].
      destruct (map_list _ r (hs ++ add1)%list) as [[ws|e] hs2] eqn:Er;
        cbn [fst snd] in E2, R2 |- *.
      * exists (add1 ++ add2)%list, rest2. subst hs2.
        rewrite F1, F2, !app_assoc. repeat split.
        intros ws' _. apply (R2 ws). reflexivity.
      * exists (add1 ++ add2)%list, rest2. subst hs2.
        rewrite F1, F2, !app_assoc. repeat split. intros ws' H. discriminate H.
    + exists add1, (rest1 ++ flat_map handles_of r)%list. subst hs1.
      rewrite F1, app_assoc. cbn [fst snd]. repeat split.
      intros ws H. discriminate H.
Qed.

Lemma for_items_appends (depth : Z) (d : items) :
  Forall (fun p => appends_only (snd p)) d ->
  forall acc hs, exists added rest,
    snd (for_items (fun x hs => serialize_value x hs depth) d acc hs)
    = (hs ++ added)%list
    /\ flat_map (fun p => handles_of (snd p)) d = (added ++ rest)%list
    /\ (forall r,
          fst (for_items (fun x hs => serialize_value x hs depth) d acc hs)
          = Return r -> rest = []).
Proof.
  induction 1 as [|[name x] t Hx _ IH]; intros acc hs.
  - exists [], []. cbn. rewrite app_nil_r. repeat split.
  - cbn [snd] in Hx. destruct (Hx hs depth) as [add1 [rest1 [E1 [F1 R1]]]].
    cbn [for_items flat_map snd]. unfold bind, ret.
    destruct (serialize_value x hs depth) as [[w|e] hs1] eqn:Ex;
      cbn [fst snd] in E1, R1.
    + specialize (R1 w eq_refl). subst rest1 hs1. rewrite app_nil_r in F1.
      destruct (IH (dict_set acc name w) (hs ++ add1)%list)
        as [add2 [rest2 [E2 [F2 R2]]]].
      exists (add1 ++ add2)%list, rest2.
      rewrite E2, F1, F2, !app_assoc. repeat split. exact R2.
    + exists add1, (rest1 ++ flat_map (fun p => handles_of (snd p)) t)%list.
      subst hs1. rewrite F1, app_assoc. cbn [fst snd]. repeat split.
      intros r H. discriminate H.
Qed.

Lemma serialize_value_appends (v : pyval) : appends_only v.
Proof.
  induction v as [| b | z | f | s | dt | l IH | d IH | j | i]
    using pyval_nested_ind; intros hs depth;
    try solve [ exists [], []; cbn [serialize_value handles_of];
                unfold raise, ret; rewrite app_nil_r;
                repeat match goal with
                       | |- context [if ?b then _ else _] => destruct b
                       end; repeat split ].
  - cbn [serialize_value handles_of]. unfold raise, ret, bind.
    destruct (100 <? depth).
    + exists [], (flat_map handles_of l). cbn [fst snd]. rewrite app_nil_r.
      repeat split. intros w H. discriminate H.
    + destruct (map_list_appends (depth + 1) l IH hs)
        as [added [rest [E [F R]]]].
      exists added, rest.
      destruct (map_list _ l hs) as [[ws|e] hs1]; cbn [fst snd] in *.
      * repeat split; try assumption. intros w _. apply (R ws). reflexivity.
      * repeat split; try assumption. intros w H. discriminate H.
  - cbn [serialize_value handles_of]. unfold raise, ret, bind.
    destruct (100 <? depth).
    + exists [], (flat_map (fun p => handles_of (snd p)) d). cbn [fst snd].
      rewrite app_nil_r. repeat split. intros w H. discriminate H.
    + destruct (for_items_appends (depth + 1) d IH [] hs)
        as [added [rest [E [F R]]]].
      exists added, rest.
      destruct (for_items _ d [] hs) as [[r|e] hs1]; cbn [fst snd] in *.
      * repeat split; try assumption. intros w _. apply (R r). reflexivity.
      * repeat split; try assumption. intros w H. discriminate H.
  - exists [_channel j], []. cbn. repeat split.
Qed.

(** *** Exactly when the encoder raises *)

Lemma reach_elements (bound : Z) (l : list nat) :
  Z.of_nat (list_max l) <= bound -> Forall (fun n => Z.of_nat n <= bound) l.
Proof.
  intros H. apply Forall_forall. intros n Hin.
  assert (Hle : (list_max l <= list_max l)%nat) by lia.
  apply list_max_le in Hle. rewrite Forall_forall in Hle.
  specialize (Hle n Hin). lia.
Qed.

Lemma map_list_succeeds (depth : Z) (l : list pyval) :
  Forall succeeds_within_reach l ->
  Forall (fun a => depth + Z.of_nat (reach a) <= 101) l ->
  forall hs, exists ws hs',
    map_list (fun a hs => serialize_value a hs depth) l hs = (Return ws, hs').
Proof.
  induction 1 as [|a r Ha _ IH]; intros Hn hs.
  - exists [], hs. reflexivity.
  - inversion Hn as [|? ? Hna Hnr]; subst.
    destruct (Ha hs depth Hna) as [w [hs1 Ew]].
    destruct (IH Hnr hs1) as [ws [hs2 Ews]].
    exists (w :: ws), hs2. cbn [map_list]. unfold bind, ret.
    rewrite Ew, Ews. reflexivity.
Qed.

Lemma for_items_succeeds (depth : Z) (d : items) :
  Forall (fun p => succeeds_within_reach (snd p)) d ->
  Forall (fun p => depth + Z.of_nat (reach (snd p)) <= 101) d ->
  forall acc hs, exists r hs',
    for_items (fun x hs => serialize_value x hs depth) d acc hs
    = (Return r, hs').
Proof.
  induction 1 as [|[name x] t Hx _ IH]; intros Hn acc hs.
  - exists acc, hs. reflexivity.
  - inversion Hn as [|? ? Hnx Hnt]; subst. cbn [snd] in Hx, Hnx.
    destruct (Hx hs depth Hnx) as [w [hs1 Ew]].
    destruct (IH Hnt (dict_set acc name w) hs1) as [r [hs2 Er]].
    exists r, hs2. cbn [for_items]. unfold bind, ret.
    rewrite Ew, Er. reflexivity.
Qed.

Lemma serialize_value_succeeds (v : pyval) : succeeds_within_reach v.
Proof.
  induction v as [| b | z | f | s | dt | l IH | d IH | j | i]
    using pyval_nested_ind; intros hs depth Hn;
    try solve [ cbn [reach] in Hn;
                match goal with
                | |- exists w hs', serialize_value ?v _ _ = _ =>
                    destruct (serialize_value_leaf v hs depth eq_refl eq_refl)
                      as [w E]; [lia | exists w, hs; exact E]
                end ].
  - cbn [reach] in Hn.
    assert (Hel : Forall (fun a => depth + 1 + Z.of_nat (reach a) <= 101) l).
    { assert (Hb : Z.of_nat (list_max (map reach l)) <= 100 - depth) by lia.
      apply reach_elements in Hb. rewrite Forall_map in Hb.
      eapply Forall_impl; [|exact Hb]. cbn beta. intros a Ha. lia. }
    destruct (map_list_succeeds (depth + 1) l IH Hel hs) as [ws [hs' E]].
    exists (dict1 "a" (PList ws)), hs'.
    rewrite serialize_value_list, E by lia. reflexivity.
  - cbn [reach] in Hn.
    assert (Hel : Forall
                    (fun p => depth + 1 + Z.of_nat (reach (snd p)) <= 101) d).
    { assert (Hb : Z.of_nat (list_max (map (fun p => reach (snd p)) d))
                   <= 100 - depth) by lia.
      apply reach_elements in Hb. rewrite Forall_map in Hb.
      eapply Forall_impl; [|exact Hb]. cbn beta. intros a Ha. lia. }
    destruct (for_items_succeeds (depth + 1) d IH Hel [] hs) as [r [hs' E]].
    exists (dict1 "o" (PDict r)), hs'. cbn [serialize_value].
    destruct (Z.ltb_spec 100 depth); [lia|]. unfold bind, ret.
    rewrite E. reflexivity.
  - eexists; eexists; reflexivity.
Qed.

Lemma reach_handle (v : pyval) : is_handle v = true -> reach v = O.
Proof. destruct v; try discriminate; reflexivity. Qed.

Lemma not_handle_of_reach (v : pyval) : (0 < reach v)%nat -> is_handle v = false.
Proof. destruct v; cbn; try reflexivity. lia. Qed.

Lemma map_list_beyond_reach (depth : Z) (l : list pyval) :
  Forall fails_beyond_reach l ->
  100 < depth + Z.of_nat (list_max (map reach l)) ->
  depth <= 100 ->
  forall hs, exists hs',
    map_list (fun a hs => serialize_value a hs (depth + 1)) l hs
    = (Raise depth_error, hs').
Proof.
  induction 1 as [|a r Ha _ IH]; intros Hn Hd hs.
  - cbn in Hn. lia.
  - cbn [map list_max fold_right] in Hn. fold (list_max (map reach r)) in Hn.
    cbn [map_list]. unfold bind, ret.
    destruct (serialize_value a hs (depth + 1)) as [[w|e] hs1] eqn:Ea.
    + destruct (Z.lt_ge_cases 101 (depth + 1 + Z.of_nat (reach a)))
        as [Hdeep|Hok].
      * destruct (Ha hs (depth + 1)) as [hs2 E2];
          [apply not_handle_of_reach; lia | exact Hdeep |].
        rewrite E2 in Ea. discriminate.
      * destruct IH with (hs := hs1) as [hs2 E2]; [lia | assumption|].
        rewrite E2. eexists; reflexivity.
    + apply serialize_value_raises in Ea. subst e. eexists; reflexivity.
Qed.

Lemma for_items_beyond_reach (depth : Z) (d : items) :
  Forall (fun p => fails_beyond_reach (snd p)) d ->
  100 < depth + Z.of_nat (list_max (map (fun p => reach (snd p)) d)) ->
  depth <= 100 ->
  forall acc hs, exists hs',
    for_items (fun x hs => serialize_value x hs (depth + 1)) d acc hs
    = (Raise depth_error, hs').
Proof.
  induction 1 as [|[name x] t Hx _ IH]; intros Hn Hd acc hs.
  - cbn in Hn. lia.
  - cbn [map list_max fold_right snd] in Hn.
    fold (list_max (map (fun p => reach (snd p)) t)) in Hn.
    cbn [snd] in Hx. cbn [for_items]. unfold bind, ret.
    destruct (serialize_value x hs (depth + 1)) as [[w|e] hs1] eqn:Ex.
    + destruct (Z.lt_ge_cases 101 (depth + 1 + Z.of_nat (reach x)))
        as [Hdeep|Hok].
      * destruct (Hx hs (depth + 1)) as [hs2 E2];
          [apply not_handle_of_reach; lia | exact Hdeep |].
        rewrite E2 in Ex. discriminate.
      * apply IH; [lia | assumption].
    + apply serialize_value_raises in Ex. subst e. eexists; reflexivity.
Qed.

Lemma serialize_value_beyond_reach (v : pyval) : fails_beyond_reach v.
Proof.
  induction v as [| b | z | f | s | dt | l IH | d IH | j | i]
    using pyval_nested_ind; intros hs depth Hh Hn; try discriminate Hh;
    try solve [ cbn [reach] in Hn; exists hs;
                apply serialize_value_above_ceiling; [reflexivity | lia] ].
  - destruct (Z.le_gt_cases depth 100) as [Hd|Hd].
    + cbn [reach] in Hn.
      destruct (map_list_beyond_reach depth l IH) with (hs := hs) as [hs' E];
        [lia | assumption |].
      exists hs'. rewrite serialize_value_list, E by assumption. reflexivity.
    + exists hs. apply serialize_value_above_ceiling; [reflexivity | lia].
  - destruct (Z.le_gt_cases depth 100) as [Hd|Hd].
    + cbn [reach] in Hn.
      destruct (for_items_beyond_reach depth d IH)
        with (acc := @nil (string * pyval)) (hs := hs)
        as [hs' E]; [lia | assumption |].
      exists hs'. cbn [serialize_value].
      destruct (Z.ltb_spec 100 depth); [lia|]. unfold bind, ret.
      rewrite E. reflexivity.
    + exists hs. apply serialize_value_above_ceiling; [reflexivity | lia].
Qed.

(** For a value of booleans, numbers, strings, lists and dicts the reach is
    one more than the nesting the round trip is bounded by. *)
Lemma reach_plain (v : pyval) : plain v = true -> reach v = S (nesting v).
Proof.
  induction v as [| b | z | f | s | dt | l IH | d IH | j | i]
    using pyval_nested_ind; intros Hp; try discriminate Hp; try reflexivity.
  - cbn [plain] in Hp. cbn [reach nesting]. f_equal.
    induction IH as [|a r Ha _ IHr]; [reflexivity|].
    cbn [forallb] in Hp. apply andb_true_iff in Hp. destruct Hp as [Hpa Hpr].
    cbn [map list_max fold_right].
    fold (list_max (map reach r)).
    fold (list_max (map (fun a => S (nesting a)) r)).
    rewrite (Ha Hpa), (IHr Hpr). destruct r; cbn; lia.
  - cbn [plain] in Hp. apply andb_true_iff in Hp. destruct Hp as [_ Hp].
    cbn [reach nesting]. f_equal.
    induction IH as [|[k x] r Hx _ IHr]; [reflexivity|].
    cbn [forallb snd] in Hp. apply andb_true_iff in Hp.
    destruct Hp as [Hpx Hpr]. cbn [snd] in Hx.
    cbn [map list_max fold_right snd].
    fold (list_max (map (fun p => reach (snd p)) r)).
    fold (list_max (map (fun p => S (nesting (snd p))) r)).
    rewrite (Hx Hpx), (IHr Hpr). destruct r; cbn; lia.
Qed.

(** *** What the encoder writes *)

Lemma in_keys_dict_set (acc : items) (name k : string) (x : pyval) :
  In k (keys (dict_set acc name x)) <-> k = name \/ In k (keys acc).
Proof.
  induction acc as [|[k' y] r IH]; cbn [dict_set keys map fst In].
  - intuition congruence.
  - destruct (String.eqb_spec k' name) as [->|Hne]; cbn [keys map fst In].
    + intuition congruence.
    + fold (keys (dict_set r name x)). rewrite IH. fold (keys r). tauto.
Qed.

Lemma distinct_dict_set (acc : items) (name : string) (x : pyval) :
  distinct (keys acc) = true -> distinct (keys (dict_set acc name x)) = true.
Proof.
  induction acc as [|[k' y] r IH]; intros Hd; cbn [dict_set]; [reflexivity|].
  cbn [keys map fst] in Hd. apply distinct_cons in Hd. destruct Hd as [Hn Hd].
  destruct (String.eqb_spec k' name) as [->|Hne]; cbn [keys map fst].
  - apply distinct_cons. split; assumption.
  - apply distinct_cons. split; [|apply IH; exact Hd].
    fold (keys (dict_set r name x)). rewrite in_keys_dict_set.
    intros [Heq|Hin]; [congruence | exact (Hn Hin)].
Qed.

Lemma forallb_dict_set (q : pyval -> bool) (acc : items) (name : string)
  (x : pyval) :
  forallb (fun p => q (snd p)) acc = true -> q x = true ->
  forallb (fun p => q (snd p)) (dict_set acc name x) = true.
Proof.
  induction acc as [|[k' y] r IH]; intros Ha Hx; cbn [dict_set forallb snd].
  - rewrite Hx. reflexivity.
  - cbn [forallb snd] in Ha. apply andb_true_iff in Ha. destruct Ha as [Hy Hr].
    destruct (String.eqb k' name); cbn [forallb snd].
    + rewrite Hx, Hr. reflexivity.
    + rewrite Hy, IH by assumption. reflexivity.
Qed.

Lemma map_list_wire (depth : Z) (l : list pyval) :
  Forall emits_wire_nodes l ->
  forall hs ws hs',
    map_list (fun a hs => serialize_value a hs depth) l hs = (Return ws, hs') ->
    forallb wire_node ws = true.
Proof.
  induction 1 as [|a r Ha _ IH]; intros hs ws hs' Hrun;
    cbn [map_list] in Hrun; unfold bind, ret in Hrun.
  - inversion Hrun; subst. reflexivity.
  - destruct (serialize_value a hs depth) as [[w|e] hs1] eqn:Ea; [|discriminate].
    destruct (map_list _ r hs1) as [[ws'|e] hs2] eqn:Er; [|discriminate].
    inversion Hrun; subst. cbn [forallb].
    rewrite (Ha _ _ _ _ Ea), (IH _ _ _ Er). reflexivity.
Qed.

Lemma for_items_wire (depth : Z) (d : items) :
  Forall (fun p => emits_wire_nodes (snd p)) d ->
  forall acc hs r hs',
    distinct (keys acc) = true ->
    forallb (fun p => wire_node (snd p)) acc = true ->
    for_items (fun x hs => serialize_value x hs depth) d acc hs
    = (Return r, hs') ->
    distinct (keys r) = true /\ forallb (fun p => wire_node (snd p)) r = true.
Proof.
  induction 1 as [|[name x] t Hx _ IH]; intros acc hs r hs' Hk Hw Hrun;
    cbn [for_items] in Hrun; unfold bind, ret in Hrun.
  - inversion Hrun; subst. split; assumption.
  - cbn [snd] in Hx.
    destruct (serialize_value x hs depth) as [[w|e] hs1] eqn:Ex; [|discriminate].
    apply (IH _ _ _ _ (distinct_dict_set acc name w Hk)
              (forallb_dict_set wire_node acc name w Hw (Hx _ _ _ _ Ex)) Hrun).
Qed.

Lemma serialize_value_wire (v : pyval) : emits_wire_nodes v.
Proof.
  induction v as [| b | z | f | s | dt | l IH | d IH | j | i]
    using pyval_nested_ind; intros hs depth w hs' Hrun;
    cbn [serialize_value] in Hrun; unfold raise, ret, bind in Hrun;
    try (destruct (100 <? depth); [discriminate|]);
    try solve [ inversion Hrun; reflexivity ].
  - destruct f as [sg | sg | | sg m e]; cbn in Hrun;
      try solve [ inversion Hrun; reflexivity ];
      destruct sg; inversion Hrun; reflexivity.
  - destruct (map_list _ l hs) as [[ws|e] hs1] eqn:El; [|discriminate].
    inversion Hrun; subst. cbn. eapply map_list_wire; [exact IH | exact El].
  - destruct (for_items _ d [] hs) as [[r|e] hs1] eqn:Ed; [|discriminate].
    inversion Hrun; subst. cbn.
    destruct (for_items_wire _ d IH [] _ _ _ eq_refl eq_refl Ed) as [Hk Hw].
    rewrite Hk, Hw. reflexivity.
  - inversion Hrun; subst. cbn. apply Z.leb_le. lia.
Qed.

(** X5. Whatever serialize_value returns is a node of the wire format: a
    raw bool, int, str or finite non-zero float, or a dict with exactly one
    key among v, d, h, a and o, where v carries one of the five strings
    undefined, Infinity, -Infinity, -0, NaN (never null), d a text, h an
    index that is not negative, a a list of nodes and o a dict of nodes with
    distinct keys.  No bare None, list, dict, zero, infinity or NaN is ever
    written. *)
Theorem encoder_writes_wire_nodes :
  forall (v : pyval) (hs : list Channel) (depth : Z) (w : pyval)
         (hs' : list Channel),
    serialize_value v hs depth = (Return w, hs') -> wire_node w = true.
Proof. intros v hs depth w hs' H. exact (serialize_value_wire v _ _ _ _ H). Qed.

Lemma encoder_writes_wire_nodes_witness :
  wire_node
    (dict1 "o"
       (PDict [("x", dict1 "a" (PList [dict1 "v" (PStr "undefined");
                                       dict1 "v" (PStr "-0"); PInt 3]));
               ("y", dict1 "h" (PInt 1))]))
  = true.
Proof.
  apply (encoder_writes_wire_nodes
           (PDict [("x", PList [PNone; PFloat pos_zero; PInt 3]);
                   ("y", PHandle (mkJSHandle (mkChannel "handle@B") "B"))])
           [mkChannel "handle@A"] 0 _ [mkChannel "handle@A"; mkChannel "handle@B"]).
  reflexivity.
Defined.

(** X6. When serialize_value is given a handle list that is not empty, the
    indices it writes go on from the length of that list: after a call that
    returns, the list is the old one followed by the channels of the
    references of the value, and the handle-tag nodes carry, in order, the
    positions those channels were appended at. *)
Theorem handle_indices_continue :
  forall (v : pyval) (hs : list Channel) (depth : Z) (w : pyval)
         (hs' : list Channel),
    well_formed v = true ->
    serialize_value v hs depth = (Return w, hs') ->
    hs' = (hs ++ handles_of v)%list
    /\ wire_handles w = indices (List.length hs) (List.length (handles_of v))
    /\ (forall x, In x (wire_handles w) ->
          exists k : nat,
            x = PInt (Z.of_nat k)
            /\ (List.length hs <= k < List.length hs')%nat).
Proof.
  intros v hs depth w hs' Hwf Hrun.
  destruct (serialize_value_handles v hs depth w hs' Hwf Hrun) as [Hhs Hw].
  split; [exact Hhs|]. split; [exact Hw|].
  intros x Hx. rewrite Hw in Hx. apply indices_bound in Hx.
  destruct Hx as [k [-> Hk]]. exists k. split; [reflexivity|].
  subst hs'. rewrite length_app. exact Hk.
Qed.

Lemma handle_indices_continue_witness :
  let a := mkJSHandle (mkChannel "handle@A") "A" in
  let b := mkJSHandle (mkChannel "handle@B") "B" in
  let hs := [mkChannel "handle@0"; mkChannel "handle@1"] in
  let v := PList [PHandle a; PDict [("k", PHandle b)]] in
  let w := dict1 "a" (PList [dict1 "h" (PInt 2);
                             dict1 "o" (PDict [("k", dict1 "h" (PInt 3))])]) in
  wire_handles w = indices 2 2.
Proof.
  intros a b hs v w.
  exact (proj1 (proj2 (handle_indices_continue v hs 5 w
                         (hs ++ [_channel a; _channel b])%list
                         eq_refl eq_refl))).
Defined.

(** X7. What is_primitive_value lets through, a bool, an int, a str or a
    float, is returned by serialize_value as it is and the handle list is
    left alone, at every depth up to the ceiling, unless it is a float that
    equals an infinity or a zero or is NaN. *)
Theorem primitives_pass_through :
  forall (v : pyval) (hs : list Channel) (depth : Z),
    depth <= 100 ->
    is_primitive_value v = true ->
    (forall f, v = PFloat f ->
       float_eq f inf = false /\ float_eq f neg_inf = false
       /\ float_eq f neg_zero = false /\ isnan f = false) ->
    serialize_value v hs depth = (Return v, hs)
    /\ parse_value v = Return v.
Proof.
  intros v hs depth Hd Hp Hf. split.
  - apply serialize_value_primitive; assumption.
  - destruct v; try discriminate Hp; reflexivity.
Qed.

Lemma primitives_pass_through_witness :
  serialize_value (PBool true) [] 3 = (Return (PBool true), [])
  /\ parse_value (PBool true) = Return (PBool true).
Proof.
  apply (primitives_pass_through (PBool true) [] 3).
  - lia.
  - reflexivity.
  - intros f H. discriminate H.
Defined.

(** *** What comes back *)

Lemma map_list_received (depth : Z) (l : list pyval) :
  Forall comes_back_received l ->
  forallb self_contained l = true ->
  Forall (fun a => depth + Z.of_nat (reach a) <= 101) l ->
  forall hs, exists ws,
    map_list (fun a hs => serialize_value a hs depth) l hs = (Return ws, hs)
    /\ map_list_outcome parse_value ws = Return (map received l).
Proof.
  induction 1 as [|a r Ha _ IH]; intros Hs Hn hs.
  - exists []. split; reflexivity.
  - cbn [forallb] in Hs. apply andb_true_iff in Hs. destruct Hs as [Hsa Hsr].
    inversion Hn as [|? ? Hna Hnr]; subst.
    destruct (Ha hs depth Hsa Hna) as [w [Ew Ev]].
    destruct (IH Hsr Hnr hs) as [ws [Ews Evs]].
    exists (w :: ws). cbn [map_list map_list_outcome map].
    unfold bind, ret, bind_outcome. rewrite Ew, Ews, Ev, Evs.
    split; reflexivity.
Qed.

Lemma map_items_received (depth : Z) (d : items) :
  Forall (fun p => comes_back_received (snd p)) d ->
  forallb (fun p => self_contained (snd p)) d = true ->
  Forall (fun p => depth + Z.of_nat (reach (snd p)) <= 101) d ->
  forall hs, exists r,
    map_items (fun x hs => serialize_value x hs depth) d hs = (Return r, hs)
    /\ keys r = keys d
    /\ map_items_outcome parse_value r
       = Return (map (fun p => (fst p, received (snd p))) d).
Proof.
  induction 1 as [|[name x] t Hx _ IH]; intros Hs Hn hs.
  - exists []. repeat split.
  - cbn [forallb snd] in Hs. apply andb_true_iff in Hs. destruct Hs as [Hsx Hst].
    inversion Hn as [|? ? Hnx Hnt]; subst. cbn [snd] in Hx, Hnx.
    destruct (Hx hs depth Hsx Hnx) as [w [Ew Ev]].
    destruct (IH Hst Hnt hs) as [r [Er [Ek Evs]]].
    exists ((name, w) :: r). cbn [map_items map_items_outcome keys map fst snd].
    unfold bind, ret, bind_outcome. rewrite Ew, Er, Ev, Evs.
    unfold keys in Ek. rewrite Ek. repeat split.
Qed.

Lemma serialize_value_received (v : pyval) : comes_back_received v.
Proof.
  induction v as [| b | z | f | s | dt | l IH | d IH | j | i]
    using pyval_nested_ind; intros hs depth Hs Hn; try discriminate Hs;
    cbn [reach] in Hn.
  - exists (dict1 "v" (PStr "undefined")). cbn.
    destruct (Z.ltb_spec 100 depth); [lia|]. split; reflexivity.
  - exists (PBool b). cbn.
    destruct (Z.ltb_spec 100 depth); [lia|]. split; reflexivity.
  - exists (PInt z). cbn.
    destruct (Z.ltb_spec 100 depth); [lia|]. split; reflexivity.
  - destruct f as [sg | sg | | sg m e].
    + exists (dict1 "v" (PStr "-0")). cbn.
      destruct (Z.ltb_spec 100 depth); [lia|]. destruct sg; split; reflexivity.
    + destruct sg.
      * exists (dict1 "v" (PStr "-Infinity")). cbn.
        destruct (Z.ltb_spec 100 depth); [lia|]. split; reflexivity.
      * exists (dict1 "v" (PStr "Infinity")). cbn.
        destruct (Z.ltb_spec 100 depth); [lia|]. split; reflexivity.
    + exists (dict1 "v" (PStr "NaN")). cbn.
      destruct (Z.ltb_spec 100 depth); [lia|]. split; reflexivity.
    + exists (PFloat (S754_finite sg m e)).
      rewrite serialize_value_finite_nonzero by lia. split; reflexivity.
  - exists (PStr s). cbn.
    destruct (Z.ltb_spec 100 depth); [lia|]. split; reflexivity.
  - cbn [self_contained] in Hs.
    exists (dict1 "d" (PStr (isoformat dt ++ "Z"))). split.
    + cbn [serialize_value]. destruct (Z.ltb_spec 100 depth); [lia|].
      reflexivity.
    + rewrite parse_value_date_tag, drop_last_append_char.
      rewrite fromisoformat_isoformat by assumption. reflexivity.
  - cbn [self_contained] in Hs.
    assert (Hel : Forall (fun a => depth + 1 + Z.of_nat (reach a) <= 101) l).
    { assert (Hb : Z.of_nat (list_max (map reach l)) <= 100 - depth) by lia.
      apply reach_elements in Hb. rewrite Forall_map in Hb.
      eapply Forall_impl; [|exact Hb]. cbn beta. intros a Ha. lia. }
    destruct (map_list_received (depth + 1) l IH Hs Hel hs) as [ws [Ews Evs]].
    exists (dict1 "a" (PList ws)).
    rewrite serialize_value_list, Ews by lia. split; [reflexivity|].
    cbn. unfold bind_outcome.
    change (map_list_outcome _ ws) with (map_list_outcome parse_value ws).
    rewrite Evs. reflexivity.
  - cbn [self_contained] in Hs. apply andb_true_iff in Hs.
    destruct Hs as [Hk Hs].
    assert (Hel : Forall
                    (fun p => depth + 1 + Z.of_nat (reach (snd p)) <= 101) d).
    { assert (Hb : Z.of_nat (list_max (map (fun p => reach (snd p)) d))
                   <= 100 - depth) by lia.
      apply reach_elements in Hb. rewrite Forall_map in Hb.
      eapply Forall_impl; [|exact Hb]. cbn beta. intros a Ha. lia. }
    destruct (map_items_received (depth + 1) d IH Hs Hel hs)
      as [r [Er [Ekr Evs]]].
    exists (dict1 "o" (PDict r)).
    rewrite serialize_value_dict, Er by (lia || assumption).
    split; [reflexivity|].
    cbn. unfold bind_outcome.
    change (for_items_outcome _ r []) with (for_items_outcome parse_value r []).
    rewrite for_items_outcome_distinct
      by (rewrite ?Ekr; assumption || (intros k _ [])).
    rewrite Evs. reflexivity.
  - exists (dict1 "v" (PStr "undefined")). cbn.
    destruct (Z.ltb_spec 100 depth); [lia|]. split; reflexivity.
Qed.

(** X4. For a value without remote-object references, with distinct keys
    in every dict and valid timestamps, and with no node under more than
    100 containers, decoding what serialize_value returned gives the value
    itself in every part, None, infinities, NaN and timestamps included, but
    for two things: an object of unknown type comes back as None and a zero
    comes back as -0.0.  The handle list is left as it was. *)
Theorem decode_of_encode_is_received :
  forall (v : pyval) (hs : list Channel),
    self_contained v = true ->
    (reach v <= 101)%nat ->
    exists w,
      serialize_value v hs 0 = (Return w, hs)
      /\ parse_value w = Return (received v)
      /\ parse_result w = Return (received v).
Proof.
  intros v hs Hs Hn.
  destruct (serialize_value_received v hs 0 Hs) as [w [Ew Ev]]; [lia|].
  exists w. repeat split; assumption.
Qed.

Lemma decode_of_encode_is_received_witness :
  let dt := mkDatetime 2021 2 28 23 59 59 0 None in
  let v := PDict [("when", PDatetime dt);
                  ("xs", PList [PNone; PFloat nan; PFloat inf; PFloat pos_zero;
                                PObject 4; PStr "NaN"])] in
  exists w,
    serialize_value v [] 0 = (Return w, [])
    /\ parse_value w
       = Return (PDict [("when", PDatetime dt);
                        ("xs", PList [PNone; PFloat nan; PFloat inf;
                                      PFloat neg_zero; PNone; PStr "NaN"])])
    /\ parse_result w
       = Return (PDict [("when", PDatetime dt);
                        ("xs", PList [PNone; PFloat nan; PFloat inf;
                                      PFloat neg_zero; PNone; PStr "NaN"])]).
Proof.
  intros dt v. apply (decode_of_encode_is_received v []).
  - reflexivity.
  - cbn. lia.
Defined.

(** ** Further properties of the decoder *)

Lemma py_eq_str (x : pyval) (s : string) :
  py_eq x (PStr s) = true <-> x = PStr s.
Proof.
  destruct x; cbn; try (split; [discriminate | intros H; discriminate H]).
  rewrite String.eqb_eq. split; [intros ->; reflexivity | intros H].
  inversion H. reflexivity.
Qed.

Lemma py_eq_str_false (x : pyval) (s : string) :
  x <> PStr s -> py_eq x (PStr s) = false.
Proof.
  intros H. destruct (py_eq x (PStr s)) eqn:E; [|reflexivity].
  apply py_eq_str in E. contradiction.
Qed.

(** X8. A dict that carries the key v is decoded by that key alone,
    whatever other keys it carries: the result is that of the one-key node
    {v: payload}.  A payload that is not one of the six sentinel strings is
    returned as it is, without being decoded, also when it is itself a
    tagged node or a list of nodes. *)
Theorem scalar_tag_decides :
  forall (d : items) (x : pyval),
    dict_get d "v" = Some x ->
    parse_value (PDict d) = parse_value (dict1 "v" x)
    /\ ((forall s, In s sentinels -> x <> PStr s) ->
        parse_value (PDict d) = Return x).
Proof.
  intros d x H. split.
  - cbn [parse_value dict1 dict_get]. rewrite H. reflexivity.
  - intros Hs. cbn [parse_value]. rewrite H.
    rewrite !py_eq_str_false; [reflexivity | | | | | |];
      apply Hs; cbn; tauto.
Qed.

Lemma scalar_tag_decides_witness :
  parse_value (PDict [("a", PList [PInt 1]); ("v", dict1 "v" (PStr "NaN"))])
  = parse_value (dict1 "v" (dict1 "v" (PStr "NaN")))
  /\ ((forall s, In s sentinels -> dict1 "v" (PStr "NaN") <> PStr s) ->
      parse_value (PDict [("a", PList [PInt 1]); ("v", dict1 "v" (PStr "NaN"))])
      = Return (dict1 "v" (PStr "NaN"))).
Proof.
  apply (scalar_tag_decides
           [("a", PList [PInt 1]); ("v", dict1 "v" (PStr "NaN"))]
           (dict1 "v" (PStr "NaN"))).
  reflexivity.
Defined.

Lemma map_list_outcome_returns (f : pyval -> outcome pyval) (l r : list pyval) :
  map_list_outcome f l = Return r <-> Forall2 (fun x y => f x = Return y) l r.
Proof.
  revert r. induction l as [|a t IH]; intros r; cbn [map_list_outcome].
  - split; [intros H; inversion H; constructor | intros H; inversion H; reflexivity].
  - unfold bind_outcome. split.
    + intros H. destruct (f a) as [w|e] eqn:Ea; [|discriminate].
      destruct (map_list_outcome f t) as [ws|e] eqn:Et; [|discriminate].
      inversion H; subst. constructor; [exact Ea | apply IH; reflexivity].
    + intros H. inversion H as [|? y ? ys Hy Hys]; subst.
      rewrite Hy. apply IH in Hys. rewrite Hys. reflexivity.
Qed.

Lemma map_list_outcome_raises (f : pyval -> outcome pyval) (l : list pyval)
  (e : exn) :
  map_list_outcome f l = Raise e <->
  exists before x after,
    l = (before ++ x :: after)%list
    /\ Forall (fun y => exists w, f y = Return w) before
    /\ f x = Raise e.
Proof.
  induction l as [|a t IH]; cbn [map_list_outcome].
  - split; [discriminate|]. intros [before [x [after [H _]]]].
    destruct before; discriminate H.
  - unfold bind_outcome. destruct (f a) as [w|e1] eqn:Ea.
    + destruct (map_list_outcome f t) as [ws|e2] eqn:Et.
      * split; [discriminate|]. intros [before [x [after [Hl [Hb Hx]]]]].
        destruct before as [|b before]; cbn in Hl; inversion Hl; subst.
        -- rewrite Hx in Ea. discriminate.
        -- inversion Hb; subst.
           assert (C : @Return (list pyval) ws = Raise e);
             [|discriminate C].
           apply IH. exists before, x, after. repeat split; assumption.
      * split.
        -- intros H. inversion H; subst.
           destruct (proj1 IH eq_refl) as [before [x [after [Hl [Hb Hx]]]]].
           exists (a :: before), x, after. subst t. repeat split; try assumption.
           constructor; [exists w; exact Ea | exact Hb].
        -- intros [before [x [after [Hl [Hb Hx]]]]].
           destruct before as [|b before]; cbn in Hl; inversion Hl; subst.
           ++ rewrite Hx in Ea. discriminate.
           ++ inversion Hb; subst. f_equal.
              assert (C : @Raise (list pyval) e2 = Raise e);
                [|inversion C; reflexivity].
              apply IH. exists before, x, after. repeat split; assumption.
    + split.
      * intros H. inversion H; subst. exists [], a, t. repeat split.
        -- constructor.
        -- exact Ea.
      * intros [before [x [after [Hl [Hb Hx]]]]].
        destruct before as [|b before]; cbn in Hl; inversion Hl; subst.
        -- rewrite Hx in Ea. inversion Ea. reflexivity.
        -- inversion Hb as [|? ? [w Hw] _]; subst. rewrite Hw in Ea.
           discriminate.
Qed.

Lemma parse_value_array (d : items) (l : list pyval) :
  dict_get d "v" = None -> dict_get d "a" = Some (PList l) ->
  parse_value (PDict d)
  = match map_list_outcome parse_value l with
    | Return r => Return (PList r)
    | Raise e => Raise e
    end.
Proof.
  intros Hv Ha. cbn [parse_value]. rewrite Hv, dict_get_with_get, Ha.
  reflexivity.
Qed.

(** X9. An array node, a dict with the key a on a list and without the key
    v, is decoded element by element: it decodes to a list exactly when
    every element decodes, and then to the list of the results, of the same
    length and in the same order; it raises exactly what the first element
    that fails raises. *)
Theorem array_node_decodes_elementwise :
  forall (d : items) (l : list pyval),
    dict_get d "v" = None ->
    dict_get d "a" = Some (PList l) ->
    (forall v,
       parse_value (PDict d) = Return v
       <-> exists r, v = PList r
                     /\ Forall2 (fun x y => parse_value x = Return y) l r)
    /\ (forall e,
          parse_value (PDict d) = Raise e
          <-> exists before x after,
                l = (before ++ x :: after)%list
                /\ Forall (fun y => exists w, parse_value y = Return w) before
                /\ parse_value x = Raise e).
Proof.
  intros d l Hv Ha. rewrite (parse_value_array d l Hv Ha). split.
  - intros v. split.
    + intros H.
      destruct (map_list_outcome parse_value l) as [r|e] eqn:E; [|discriminate].
      inversion H; subst. exists r. split; [reflexivity|].
      apply map_list_outcome_returns. exact E.
    + intros [r [-> H]]. apply map_list_outcome_returns in H. rewrite H.
      reflexivity.
  - intros e. rewrite <- map_list_outcome_raises.
    destruct (map_list_outcome parse_value l) as [r|e1];
      split; intros H; try discriminate H; inversion H; reflexivity.
Qed.

Lemma array_node_decodes_elementwise_witness :
  parse_value (dict1 "a" (PList [dict1 "v" (PStr "null"); PInt 2;
                                 dict1 "d" (PStr "yesterdayZ"); dict1 "d" PNone]))
  = Raise ValueError.
Proof.
  apply (proj2 (array_node_decodes_elementwise
                  [("a", PList [dict1 "v" (PStr "null"); PInt 2;
                                dict1 "d" (PStr "yesterdayZ"); dict1 "d" PNone])]
                  _ eq_refl eq_refl) ValueError).
  exists [dict1 "v" (PStr "null"); PInt 2], (dict1 "d" (PStr "yesterdayZ")),
    [dict1 "d" PNone].
  repeat split.
  repeat constructor; eexists; reflexivity.
Defined.

Lemma map_items_outcome_returns (f : pyval -> outcome pyval) (e r : items) :
  map_items_outcome f e = Return r
  <-> Forall2 (fun p q => fst q = fst p /\ f (snd p) = Return (snd q)) e r.
Proof.
  revert r. induction e as [|[name x] t IH]; intros r; cbn [map_items_outcome].
  - split; [intros H; inversion H; constructor | intros H; inversion H; reflexivity].
  - unfold bind_outcome. split.
    + intros H. destruct (f x) as [w|e1] eqn:Ex; [|discriminate].
      destruct (map_items_outcome f t) as [ws|e1] eqn:Et; [|discriminate].
      inversion H; subst.
      constructor; [split; [reflexivity | exact Ex] | apply IH; reflexivity].
    + intros H. inversion H as [|? [k y] ? ys [Hk Hy] Hys]; subst.
      cbn [fst snd] in Hk, Hy. subst k. rewrite Hy.
      apply IH in Hys. rewrite Hys. reflexivity.
Qed.

Lemma parse_value_object (d e : items) :
  dict_get d "v" = None -> dict_get d "a" = None -> dict_get d "d" = None ->
  dict_get d "o" = Some (PDict e) ->
  distinct (keys e) = true ->
  parse_value (PDict d)
  = match map_items_outcome parse_value e with
    | Return r => Return (PDict r)
    | Raise x => Raise x
    end.
Proof.
  intros Hv Ha Hd Ho Hk. cbn [parse_value].
  rewrite Hv, !dict_get_with_get, Ha, Hd, Ho. cbn [option_map].
  unfold bind_outcome.
  rewrite for_items_outcome_distinct by (assumption || (intros k _ [])).
  destruct (map_items_outcome parse_value e); reflexivity.
Qed.

(** X10. An object node, a dict with the key o on a dict and without the
    keys v, a and d, is decoded value by value: it decodes to a dict exactly
    when every value decodes, and then to the dict with the same keys in
    the same order, each on the decoding of its value. *)
Theorem object_node_decodes_valuewise :
  forall (d e : items),
    dict_get d "v" = None -> dict_get d "a" = None -> dict_get d "d" = None ->
    dict_get d "o" = Some (PDict e) ->
    distinct (keys e) = true ->
    forall v,
      parse_value (PDict d) = Return v
      <-> exists r,
            v = PDict r
            /\ keys r = keys e
            /\ Forall2 (fun p q => fst q = fst p
                                   /\ parse_value (snd p) = Return (snd q)) e r.
Proof.
  intros d e Hv Ha Hd Ho Hk v.
  rewrite (parse_value_object d e Hv Ha Hd Ho Hk). split.
  - intros H.
    destruct (map_items_outcome parse_value e) as [r|x] eqn:E; [|discriminate].
    inversion H; subst. apply map_items_outcome_returns in E.
    exists r. split; [reflexivity|]. split; [|exact E].
    clear -E. induction E as [|p q e r [Hf _] _ IH]; [reflexivity|].
    cbn [keys map]. rewrite Hf. f_equal. exact IH.
  - intros [r [-> [_ H]]]. apply map_items_outcome_returns in H.
    rewrite H. reflexivity.
Qed.

Lemma object_node_decodes_valuewise_witness :
  parse_value (dict1 "o" (PDict [("v", dict1 "v" (PStr "Infinity"));
                                 ("o", PStr "null")]))
  = Return (PDict [("v", PFloat inf); ("o", PStr "null")]).
Proof.
  apply (proj2 (object_node_decodes_valuewise
                  [("o", PDict [("v", dict1 "v" (PStr "Infinity"));
                                ("o", PStr "null")])]
                  _ eq_refl eq_refl eq_refl eq_refl eq_refl _)).
  eexists. split; [reflexivity|]. split; [reflexivity|].
  repeat constructor.
Defined.

(** ** The methods *)



(** ** The handle list and the depth as inputs *)

Lemma map_list_reads_only_length (depth : Z) (l : list pyval) :
  Forall reads_only_length l ->
  forall hs1 hs2,
    List.length hs1 = List.length hs2 ->
    fst (map_list (fun a hs => serialize_value a hs depth) l hs1)
    = fst (map_list (fun a hs => serialize_value a hs depth) l hs2)
    /\ List.length (snd (map_list (fun a hs => serialize_value a hs depth) l hs1))
       = List.length
           (snd (map_list (fun a hs => serialize_value a hs depth) l hs2)).
Proof.
  induction 1 as [|a r Ha _ IH]; intros hs1 hs2 Hl.
  - split; [reflexivity | exact Hl].
  - cbn [map_list]. unfold bind, ret.
    destruct (Ha hs1 hs2 depth Hl) as [Hf Hs].
    destruct (serialize_value a hs1 depth) as [[w1|e1] t1];
      destruct (serialize_value a hs2 depth) as [[w2|e2] t2];
      cbn [fst snd] in Hf, Hs; try discriminate Hf.
    + inversion Hf; subst w2. destruct (IH t1 t2 Hs) as [Hf' Hs'].
      destruct (map_list _ r t1) as [[ws1|x1] u1];
        destruct (map_list _ r t2) as [[ws2|x2] u2];
        cbn [fst snd] in Hf', Hs' |- *; try discriminate Hf'.
      * inversion Hf'; subst. split; [reflexivity | exact Hs'].
      * inversion Hf'; subst. split; [reflexivity | exact Hs'].
    + inversion Hf; subst. split; [reflexivity | exact Hs].
Qed.

Lemma for_items_reads_only_length (depth : Z) (d : items) :
  Forall (fun p => reads_only_length (snd p)) d ->
  forall acc hs1 hs2,
    List.length hs1 = List.length hs2 ->
    fst (for_items (fun x hs => serialize_value x hs depth) d acc hs1)
    = fst (for_items (fun x hs => serialize_value x hs depth) d acc hs2)
    /\ List.length
         (snd (for_items (fun x hs => serialize_value x hs depth) d acc hs1))
       = List.length
           (snd (for_items (fun x hs => serialize_value x hs depth) d acc hs2)).
Proof.
  induction 1 as [|[name x] t Hx _ IH]; intros acc hs1 hs2 Hl.
  - split; [reflexivity | exact Hl].
  - cbn [for_items]. unfold bind, ret. cbn [snd] in Hx.
    destruct (Hx hs1 hs2 depth Hl) as [Hf Hs].
    destruct (serialize_value x hs1 depth) as [[w1|e1] t1];
      destruct (serialize_value x hs2 depth) as [[w2|e2] t2];
      cbn [fst snd] in Hf, Hs; try discriminate Hf.
    + inversion Hf; subst w2. apply IH. exact Hs.
    + inversion Hf; subst. split; [reflexivity | exact Hs].
Qed.

Lemma serialize_value_reads_only_length (v : pyval) : reads_only_length v.
Proof.
  induction v as [| b | z | f | s | dt | l IH | d IH | j | i]
    using pyval_nested_ind; intros hs1 hs2 depth Hl;
    try solve [ cbn [serialize_value]; unfold raise, ret;
                repeat match goal with
                       | |- context [if ?b then _ else _] => destruct b
                       end; (split; [reflexivity | exact Hl]) ].
  - cbn [serialize_value]. unfold raise, ret, bind.
    destruct (100 <? depth); [split; [reflexivity | exact Hl]|].
    destruct (map_list_reads_only_length (depth + 1) l IH hs1 hs2 Hl)
      as [Hf Hs].
    destruct (map_list _ l hs1) as [[ws1|x1] u1];
      destruct (map_list _ l hs2) as [[ws2|x2] u2];
      cbn [fst snd] in Hf, Hs |- *; try discriminate Hf;
      inversion Hf; subst; split; [reflexivity | exact Hs | reflexivity | exact Hs].
  - cbn [serialize_value]. unfold raise, ret, bind.
    destruct (100 <? depth); [split; [reflexivity | exact Hl]|].
    destruct (for_items_reads_only_length (depth + 1) d IH [] hs1 hs2 Hl)
      as [Hf Hs].
    destruct (for_items _ d [] hs1) as [[r1|x1] u1];
      destruct (for_items _ d [] hs2) as [[r2|x2] u2];
      cbn [fst snd] in Hf, Hs |- *; try discriminate Hf;
      inversion Hf; subst; split; [reflexivity | exact Hs | reflexivity | exact Hs].
  - cbn [serialize_value fst snd]. rewrite !length_app, Hl.
    split; reflexivity.
Qed.

(** X13. serialize_value reads nothing of the handle list but its length:
    called with two lists of the same length it returns the same wire value,
    or raises the same exception, and appends the same number of
    channels. *)
Theorem encoder_reads_only_the_length :
  forall (v : pyval) (hs1 hs2 : list Channel) (depth : Z),
    List.length hs1 = List.length hs2 ->
    fst (serialize_value v hs1 depth) = fst (serialize_value v hs2 depth)
    /\ List.length (snd (serialize_value v hs1 depth))
       = List.length (snd (serialize_value v hs2 depth)).
Proof.
  intros v hs1 hs2 depth H. apply serialize_value_reads_only_length. exact H.
Qed.

Lemma encoder_reads_only_the_length_witness :
  let v := PList [PHandle (mkJSHandle (mkChannel "handle@A") "A"); PInt 1] in
  fst (serialize_value v [mkChannel "handle@0"] 0)
  = fst (serialize_value v [mkChannel "handle@9"] 0)
  /\ List.length (snd (serialize_value v [mkChannel "handle@0"] 0))
     = List.length (snd (serialize_value v [mkChannel "handle@9"] 0)).
Proof.
  intros v.
  apply (encoder_reads_only_the_length v [mkChannel "handle@0"]
           [mkChannel "handle@9"] 0).
  reflexivity.
Defined.

Lemma map_list_same_at_smaller_depth (depth depth' : Z) (l : list pyval) :
  Forall same_at_smaller_depth l ->
  depth' <= depth ->
  forall hs ws hs',
    map_list (fun a hs => serialize_value a hs depth) l hs = (Return ws, hs') ->
    map_list (fun a hs => serialize_value a hs depth') l hs = (Return ws, hs').
Proof.
  intros H Hd. induction H as [|a r Ha _ IH]; intros hs ws hs' Hrun;
    cbn [map_list] in *; unfold bind, ret in *; [exact Hrun|].
  destruct (serialize_value a hs depth) as [[w|e] hs1] eqn:Ea; [|discriminate].
  destruct (map_list _ r hs1) as [[ws'|e] hs2] eqn:Er; [|discriminate].
  rewrite (Ha _ _ depth' _ _ Ea Hd), (IH _ _ _ Er). exact Hrun.
Qed.

Lemma for_items_same_at_smaller_depth (depth depth' : Z) (d : items) :
  Forall (fun p => same_at_smaller_depth (snd p)) d ->
  depth' <= depth ->
  forall acc hs r hs',
    for_items (fun x hs => serialize_value x hs depth) d acc hs = (Return r, hs') ->
    for_items (fun x hs => serialize_value x hs depth') d acc hs = (Return r, hs').
Proof.
  intros H Hd. induction H as [|[name x] t Hx _ IH]; intros acc hs r hs' Hrun;
    cbn [for_items] in *; unfold bind, ret in *; [exact Hrun|].
  cbn [snd] in Hx.
  destruct (serialize_value x hs depth) as [[w|e] hs1] eqn:Ex; [|discriminate].
  rewrite (Hx _ _ depth' _ _ Ex Hd). apply IH. exact Hrun.
Qed.

Lemma serialize_value_same_at_smaller_depth (v : pyval) :
  same_at_smaller_depth v.
Proof.
  induction v as [| b | z | f | s | dt | l IH | d IH | j | i]
    using pyval_nested_ind; intros hs depth depth' w hs' Hrun Hd;
    cbn [serialize_value] in *; unfold raise, ret, bind in *;
    try exact Hrun;
    (destruct (Z.ltb_spec 100 depth); [discriminate|]);
    (destruct (Z.ltb_spec 100 depth'); [lia|]); try exact Hrun.
  - destruct (map_list _ l hs) as [[ws|e] hs1] eqn:El; [|discriminate].
    rewrite (map_list_same_at_smaller_depth (depth + 1) (depth' + 1) l IH
               ltac:(lia) _ _ _ El).
    exact Hrun.
  - destruct (for_items _ d [] hs) as [[r|e] hs1] eqn:Ed; [|discriminate].
    rewrite (for_items_same_at_smaller_depth (depth + 1) (depth' + 1) d IH
               ltac:(lia) _ _ _ _ Ed).
    exact Hrun.
Qed.

(** X14. The depth serialize_value is called with decides only whether it
    raises, never what it writes: what it returns at one depth, wire value
    and handle list, it returns at every smaller depth. *)
Theorem depth_changes_nothing_written :
  forall (v : pyval) (hs : list Channel) (depth depth' : Z) (w : pyval)
         (hs' : list Channel),
    serialize_value v hs depth = (Return w, hs') ->
    depth' <= depth ->
    serialize_value v hs depth' = (Return w, hs').
Proof.
  intros v hs depth depth' w hs' H Hd.
  exact (serialize_value_same_at_smaller_depth v hs depth depth' w hs' H Hd).
Qed.

Lemma depth_changes_nothing_written_witness :
  serialize_value (PList [PStr "x"; PNone]) [] (-3)
  = (Return (dict1 "a" (PList [PStr "x"; dict1 "v" (PStr "undefined")])), []).
Proof.
  apply (depth_changes_nothing_written (PList [PStr "x"; PNone]) [] 99 (-3)).
  - reflexivity.
  - lia.
Defined.

(** ** The depth ceiling on any structure *)

Lemma reach_not_handle (v : pyval) : is_handle v = false -> (0 < reach v)%nat.
Proof. destruct v; cbn; intros H; try discriminate H; lia. Qed.

Lemma list_max_bounds (l : list nat) (n : nat) :
  In n l -> (n <= list_max l)%nat.
Proof.
  intros Hin. assert (Hle : (list_max l <= list_max l)%nat) by lia.
  apply list_max_le in Hle. rewrite Forall_forall in Hle. exact (Hle n Hin).
Qed.

Lemma list_max_attained (l : list nat) :
  (0 < list_max l)%nat -> In (list_max l) l.
Proof.
  induction l as [|a r IH]; cbn [list_max fold_right]; [lia|].
  fold (list_max r). intros H.
  destruct (Nat.max_spec a (list_max r)) as [[Hlt ->]|[Hle ->]].
  - right. apply IH. lia.
  - left. reflexivity.
Qed.

(** A node that is not a handle lies under fewer containers than the reach
    of the value. *)
Lemma node_below_reach (n : nat) (v u : pyval) :
  node_at n v u -> is_handle u = false -> (n < reach v)%nat.
Proof.
  induction 1 as [v | n l a u Hin _ IH | n d k x u Hin _ IH]; intros Hu.
  - apply reach_not_handle. exact Hu.
  - cbn [reach]. specialize (IH Hu).
    assert (Hb : (reach a <= list_max (map reach l))%nat)
      by (apply list_max_bounds, in_map; exact Hin).
    lia.
  - cbn [reach]. specialize (IH Hu).
    assert (Hb : (reach x <= list_max (map (fun p => reach (snd p)) d))%nat)
      by (apply list_max_bounds;
          apply (in_map (fun p => reach (snd p)) d (k, x)); exact Hin).
    lia.
Qed.

(** And one such node lies under one container less than the reach. *)
Lemma deepest_node (v : pyval) : has_deepest_node v.
Proof.
  induction v as [| b | z | f | s | dt | l IH | d IH | j | i]
    using pyval_nested_ind; intros Hr;
    try solve [ eexists; split; [apply node_here | reflexivity] ].
  - cbn [reach] in *. replace (S (list_max (map reach l)) - 1)%nat
      with (list_max (map reach l)) by lia.
    destruct (list_max (map reach l)) as [|m] eqn:Em.
    + exists (PList l). split; [apply node_here | reflexivity].
    + assert (Hin : In (S m) (map reach l))
        by (rewrite <- Em; apply list_max_attained; lia).
      apply in_map_iff in Hin. destruct Hin as [a [Ha Hin]].
      rewrite Forall_forall in IH.
      destruct (IH a Hin) as [u [Hu Hh]]; [lia|].
      exists u. split; [|exact Hh].
      apply (node_in_list m l a u Hin). rewrite Ha in Hu.
      replace (S m - 1)%nat with m in Hu by lia. exact Hu.
  - cbn [reach] in *.
    replace (S (list_max (map (fun p => reach (snd p)) d)) - 1)%nat
      with (list_max (map (fun p => reach (snd p)) d)) by lia.
    destruct (list_max (map (fun p => reach (snd p)) d)) as [|m] eqn:Em.
    + exists (PDict d). split; [apply node_here | reflexivity].
    + assert (Hin : In (S m) (map (fun p => reach (snd p)) d))
        by (rewrite <- Em; apply list_max_attained; lia).
      apply in_map_iff in Hin. destruct Hin as [[k x] [Hx Hin]].
      cbn [snd] in Hx. rewrite Forall_forall in IH.
      destruct (IH (k, x) Hin) as [u [Hu Hh]]; [cbn [snd]; lia|].
      cbn [snd] in Hu. exists u. split; [|exact Hh].
      apply (node_in_dict m d k x u Hin). rewrite Hx in Hu.
      replace (S m - 1)%nat with m in Hu by lia. exact Hu.
  - cbn in Hr. lia.
Qed.

Lemma node_at_nest (n : nat) (v : pyval) : node_at n (nest n v) v.
Proof.
  induction n as [|n IH]; [apply node_here|].
  apply (node_in_list n [nest n v] (nest n v) v); [left; reflexivity | exact IH].
Qed.

(** C5. Anything but a handle met above depth 100 makes serialize_value
    raise before it looks at the value, the handle list untouched.  So for
    every value, whatever its shape and wherever in it the deep part sits:
    serialize_argument raises the Error of the depth ceiling, and returns no
    envelope, exactly when some node that is not a handle lies under 101 or
    more containers; and it returns an envelope exactly when every such node
    lies under 100 containers at most. *)
Theorem depth_ceiling :
  forall v : pyval,
    timestamps_valid v = true ->
    (forall hs depth,
       is_handle v = false -> 100 < depth ->
       serialize_value v hs depth = (Raise depth_error, hs))
    /\ ((exists u n, node_at n v u /\ is_handle u = false /\ (100 < n)%nat)
        <-> serialize_argument v = Raise depth_error)
    /\ ((exists u n, node_at n v u /\ is_handle u = false /\ (100 < n)%nat)
        -> forall hs, exists hs',
             serialize_value v hs 0 = (Raise depth_error, hs'))
    /\ ((forall u n, node_at n v u -> is_handle u = false -> (n <= 100)%nat)
        <-> exists w hs', serialize_argument v = Return (mkArgument w hs')).
Proof.
  intros v _.
  assert (Deep : (exists u n, node_at n v u /\ is_handle u = false
                              /\ (100 < n)%nat)
                 -> forall hs, exists hs',
                      serialize_value v hs 0 = (Raise depth_error, hs')).
  { intros [u [n [Hn [Hu Hd]]]] hs.
    pose proof (node_below_reach n v u Hn Hu) as Hr.
    apply serialize_value_beyond_reach;
      [apply not_handle_of_reach; lia | lia]. }
  assert (Shallow : (forall u n, node_at n v u -> is_handle u = false
                                 -> (n <= 100)%nat)
                    -> exists w hs', serialize_value v [] 0 = (Return w, hs')).
  { intros Hall. apply serialize_value_succeeds.
    destruct (Nat.le_gt_cases (reach v) 101) as [Hle|Hgt]; [lia|].
    destruct (deepest_node v) as [u [Hu Hh]]; [lia|].
    specialize (Hall u _ Hu Hh). lia. }
  split; [|split; [|split; [exact Deep|]]].
  - intros hs depth Hh Hd. apply serialize_value_above_ceiling; assumption.
  - unfold serialize_argument. split.
    + intros H. destruct (Deep H []) as [hs' E]. rewrite E. reflexivity.
    + intros H.
      destruct (Nat.le_gt_cases (reach v) 101) as [Hle|Hgt].
      * destruct (serialize_value_succeeds v [] 0) as [w [hs' E]]; [lia|].
        rewrite E in H. discriminate H.
      * destruct (deepest_node v) as [u [Hu Hh]]; [lia|].
        exists u, (reach v - 1)%nat. repeat split; [exact Hu | exact Hh | lia].
  - unfold serialize_argument. split.
    + intros H. destruct (Shallow H) as [w [hs' E]]. rewrite E.
      exists w, hs'. reflexivity.
    + intros [w [hs' H]] u n Hn Hu.
      destruct (Nat.le_gt_cases n 100) as [Hle|Hgt]; [exact Hle|].
      destruct (Deep (ex_intro _ u (ex_intro _ n (conj Hn (conj Hu Hgt)))) [])
        as [hs2 E].
      rewrite E in H. discriminate H.
Qed.

Lemma depth_ceiling_witness :
  serialize_argument (PList [PInt 0; nest 100 (PInt 0)]) = Raise depth_error
  /\ (exists w hs',
        serialize_argument (PList [PInt 0; nest 99 (PInt 0)])
        = Return (mkArgument w hs'))
  /\ serialize_value (PStr "x") [] 101 = (Raise depth_error, []).
Proof.
  split; [|split].
  - apply (proj1 (proj1 (proj2 (depth_ceiling
                                  (PList [PInt 0; nest 100 (PInt 0)])
                                  eq_refl)))).
    exists (PInt 0), 101%nat. split; [|split; [reflexivity | lia]].
    apply (node_in_list 100 [PInt 0; nest 100 (PInt 0)] (nest 100 (PInt 0))).
    + right. left. reflexivity.
    + apply node_at_nest.
  - apply (proj1 (proj2 (proj2 (proj2 (depth_ceiling
                                         (PList [PInt 0; nest 99 (PInt 0)])
                                         eq_refl))))).
    intros u n Hn Hu. pose proof (node_below_reach n _ u Hn Hu) as Hr.
    vm_compute in Hr. lia.
  - apply (proj1 (depth_ceiling (PStr "x") eq_refl)); [reflexivity | lia].
Defined.

(** ** The encoder called as the program calls it *)

(** X1. Called at a depth that is not negative on a value whose timestamps
    are valid, the only exception serialize_value raises is the Error of the
    depth ceiling. *)
Theorem serialize_value_raises_nothing_else :
  forall (v : pyval) (hs : list Channel) (depth : Z) (e : exn)
         (hs' : list Channel),
    0 <= depth ->
    timestamps_valid v = true ->
    serialize_value v hs depth = (Raise e, hs') ->
    e = Error "Maximum argument depth exceeded".
Proof.
  intros v hs depth e hs' _ _ H. exact (serialize_value_raises v _ _ _ _ H).
Qed.

Lemma serialize_value_raises_nothing_else_witness :
  Error "Maximum argument depth exceeded"
  = Error "Maximum argument depth exceeded".
Proof.
  apply (serialize_value_raises_nothing_else
           (PList [PNone]) [] 100
           (Error "Maximum argument depth exceeded") []).
  - lia.
  - reflexivity.
  - reflexivity.
Defined.

(** Whether the call raises is read off the reach. *)
Lemma serialize_value_outcome (v : pyval) (hs : list Channel) (depth : Z) :
  (too_deep v depth = true ->
   exists hs', serialize_value v hs depth = (Raise depth_error, hs'))
  /\ (too_deep v depth = false ->
      exists w hs', serialize_value v hs depth = (Return w, hs')).
Proof.
  unfold too_deep. split; intros H.
  - apply andb_true_iff in H. destruct H as [Hh Hd].
    apply negb_true_iff in Hh. apply Z.ltb_lt in Hd.
    apply serialize_value_beyond_reach; assumption.
  - apply andb_false_iff in H. destruct H as [Hh|Hd].
    + apply negb_false_iff in Hh. destruct v; try discriminate Hh.
      eexists; eexists; reflexivity.
    + apply Z.ltb_ge in Hd. apply serialize_value_succeeds. exact Hd.
Qed.

Lemma map_list_keeps (depth : Z) (l : list pyval) :
  Forall keeps_what_it_met l ->
  forall hs,
    snd (map_list (fun a hs => serialize_value a hs depth) l hs)
    = (hs ++ until_failure (fun a => kept a depth)
               (fun a => too_deep a depth) l)%list.
Proof.
  induction 1 as [|a r Ha _ IH]; intros hs.
  - cbn. rewrite app_nil_r. reflexivity.
  - cbn [map_list until_failure]. unfold bind, ret.
    pose proof (Ha hs depth) as Hk.
    destruct (serialize_value_outcome a hs depth) as [Hdeep Hok].
    destruct (serialize_value a hs depth) as [[w|e] hs1] eqn:Ea;
      cbn [snd] in Hk; subst hs1.
    + destruct (too_deep a depth).
      * destruct (Hdeep eq_refl) as [hs2 E]. discriminate E.
      * specialize (IH (hs ++ kept a depth)%list).
        destruct (map_list _ r (hs ++ kept a depth)%list) as [[ws|e] hs2];
          cbn [snd] in IH |- *; rewrite IH, app_assoc; reflexivity.
    + destruct (too_deep a depth).
      * cbn [snd]. rewrite app_nil_r. reflexivity.
      * destruct (Hok eq_refl) as [w [hs2 E]]. discriminate E.
Qed.

Lemma for_items_keeps (depth : Z) (d : items) :
  Forall (fun p => keeps_what_it_met (snd p)) d ->
  forall acc hs,
    snd (for_items (fun x hs => serialize_value x hs depth) d acc hs)
    = (hs ++ until_failure_items (fun x => kept x depth)
               (fun x => too_deep x depth) d)%list.
Proof.
  induction 1 as [|[name x] t Hx _ IH]; intros acc hs.
  - cbn. rewrite app_nil_r. reflexivity.
  - cbn [for_items until_failure_items]. unfold bind, ret. cbn [snd] in Hx.
    pose proof (Hx hs depth) as Hk.
    destruct (serialize_value_outcome x hs depth) as [Hdeep Hok].
    destruct (serialize_value x hs depth) as [[w|e] hs1] eqn:Ex;
      cbn [snd] in Hk; subst hs1.
    + destruct (too_deep x depth).
      * destruct (Hdeep eq_refl) as [hs2 E]. discriminate E.
      * rewrite IH, app_assoc. reflexivity.
    + destruct (too_deep x depth).
      * cbn [snd]. rewrite app_nil_r. reflexivity.
      * destruct (Hok eq_refl) as [w [hs2 E]]. discriminate E.
Qed.

Lemma serialize_value_keeps (v : pyval) : keeps_what_it_met v.
Proof.
  induction v as [| b | z | f | s | dt | l IH | d IH | j | i]
    using pyval_nested_ind; intros hs depth;
    try solve [ cbn [serialize_value kept]; unfold raise, ret;
                rewrite app_nil_r;
                repeat match goal with
                       | |- context [if ?b then _ else _] => destruct b
                       end; reflexivity ].
  - cbn [serialize_value kept]. unfold raise, ret, bind.
    destruct (100 <? depth); [cbn [snd]; rewrite app_nil_r; reflexivity|].
    rewrite <- (map_list_keeps (depth + 1) l IH hs).
    destruct (map_list _ l hs) as [[ws|e] hs1]; reflexivity.
  - cbn [serialize_value kept]. unfold raise, ret, bind.
    destruct (100 <? depth); [cbn [snd]; rewrite app_nil_r; reflexivity|].
    rewrite <- (for_items_keeps (depth + 1) d IH [] hs).
    destruct (for_items _ d [] hs) as [[r|e] hs1]; reflexivity.
  - reflexivity.
Qed.

(** X2. serialize_value only appends to the handle list it is given, and
    what it appended stays when it raises: after a call at a depth that is
    not negative, on a value with valid timestamps, the list is the one it
    was given followed by exactly the channels of the references that come,
    depth first and left to right, before the first node above the ceiling;
    these begin the references of the value, and are all of them when the
    call returns. *)
Theorem handle_list_keeps_what_was_met :
  forall (v : pyval) (hs : list Channel) (depth : Z),
    0 <= depth ->
    timestamps_valid v = true ->
    snd (serialize_value v hs depth) = (hs ++ kept v depth)%list
    /\ (exists rest, handles_of v = (kept v depth ++ rest)%list)
    /\ (forall w, fst (serialize_value v hs depth) = Return w ->
          kept v depth = handles_of v).
Proof.
  intros v hs depth _ _.
  pose proof (serialize_value_keeps v hs depth) as Hk.
  destruct (serialize_value_appends v hs depth) as [added [rest [E [F R]]]].
  rewrite Hk in E. apply app_inv_head in E. subst added.
  split; [exact Hk|]. split; [exists rest; exact F|].
  intros w Hw. rewrite (R w Hw), app_nil_r in F. symmetry. exact F.
Qed.

Lemma handle_list_keeps_what_was_met_witness :
  let a := mkJSHandle (mkChannel "handle@A") "A" in
  let b := mkJSHandle (mkChannel "handle@B") "B" in
  let v := PList [PHandle a; PList [PHandle b; nest 99 (PInt 0)]; PHandle a] in
  snd (serialize_value v [mkChannel "handle@0"] 0)
  = [mkChannel "handle@0"; _channel a; _channel b].
Proof.
  intros a b v.
  exact (eq_trans
           (proj1 (handle_list_keeps_what_was_met v [mkChannel "handle@0"] 0
                     ltac:(lia) eq_refl))
           eq_refl).
Defined.

(** X3. Called at a depth that is not negative on a value with valid
    timestamps, serialize_value returns exactly when the value is a handle
    or every node of it that is not a handle lies at a depth of at most 100,
    the depth of the call counted in; otherwise it raises.  So
    serialize_argument raises exactly on the values that are not a handle
    and have such a node under more than 100 containers. *)
Theorem encoder_returns_iff_within_reach :
  forall (v : pyval) (hs : list Channel) (depth : Z),
    0 <= depth ->
    timestamps_valid v = true ->
    ((exists w hs', serialize_value v hs depth = (Return w, hs'))
     <-> is_handle v = true \/ depth + Z.of_nat (reach v) <= 101)
    /\ (serialize_argument v = Raise depth_error
        <-> is_handle v = false /\ (101 < reach v)%nat).
Proof.
  intros v hs depth _ _.
  assert (A : forall hs depth,
             (exists w hs', serialize_value v hs depth = (Return w, hs'))
             <-> is_handle v = true \/ depth + Z.of_nat (reach v) <= 101).
  { clear hs depth. intros hs depth. split.
    - intros [w [hs' E]].
      destruct (is_handle v) eqn:Hh; [left; reflexivity | right].
      destruct (Z.le_gt_cases (depth + Z.of_nat (reach v)) 101) as [|Hgt];
        [assumption|].
      destruct (serialize_value_beyond_reach v hs depth Hh) as [hs2 E2]; [lia|].
      rewrite E2 in E. discriminate.
    - intros [Hh|Hn].
      + destruct v; try discriminate Hh. eexists; eexists; reflexivity.
      + apply serialize_value_succeeds. exact Hn. }
  split; [apply A|].
  unfold serialize_argument. split.
  - intros H. destruct (serialize_value v [] 0) as [[w|e] hs1] eqn:E;
      [discriminate|].
    assert (N : ~ (is_handle v = true \/ 0 + Z.of_nat (reach v) <= 101)).
    { intros C. apply A with (hs := @nil Channel) in C.
      destruct C as [w [hs2 E2]]. rewrite E2 in E. discriminate. }
    split; [destruct (is_handle v); [exfalso; apply N; left|]; reflexivity|].
    destruct (Nat.le_gt_cases (reach v) 101) as [Hle|]; [|assumption].
    exfalso. apply N. right. lia.
  - intros [Hh Hn].
    destruct (serialize_value_beyond_reach v [] 0 Hh) as [hs2 E2]; [lia|].
    rewrite E2. reflexivity.
Qed.

Lemma encoder_returns_iff_within_reach_witness :
  (exists w hs',
     serialize_value (PList [PHandle (mkJSHandle (mkChannel "handle@A") "A");
                             nest 50 (PStr "x")]) [] 49
     = (Return w, hs'))
  /\ serialize_argument (PDict [("k", nest 101 PNone)]) = Raise depth_error.
Proof.
  split.
  - apply (proj1 (encoder_returns_iff_within_reach
                    (PList [PHandle (mkJSHandle (mkChannel "handle@A") "A");
                            nest 50 (PStr "x")]) [] 49 ltac:(lia) eq_refl)).
    right. vm_compute. discriminate.
  - apply (proj2 (encoder_returns_iff_within_reach
                    (PDict [("k", nest 101 PNone)]) [] 0 ltac:(lia) eq_refl)).
    split; [reflexivity | vm_compute; lia].
Defined.

(** ** Decoding what was encoded *)

Lemma decodes_returns (w : pyval) :
  decodes w = true <-> exists x, parse_value w = Return x.
Proof.
  unfold decodes. destruct (parse_value w) as [x|e]; split.
  - intros _. exists x. reflexivity.
  - reflexivity.
  - discriminate.
  - intros [x H]. discriminate H.
Qed.

Lemma map_list_outcome_decodes (ws : list pyval) :
  forallb decodes ws = true ->
  exists r, map_list_outcome parse_value ws = Return r.
Proof.
  induction ws as [|w t IH]; intros H; [exists []; reflexivity|].
  cbn [forallb] in H. apply andb_true_iff in H. destruct H as [Hw Ht].
  apply decodes_returns in Hw. destruct Hw as [x Hx].
  destruct (IH Ht) as [r Hr]. exists (x :: r).
  cbn [map_list_outcome]. unfold bind_outcome. rewrite Hx, Hr. reflexivity.
Qed.

Lemma for_items_outcome_decodes (d : items) :
  forallb (fun p => decodes (snd p)) d = true ->
  forall acc, exists r, for_items_outcome parse_value d acc = Return r.
Proof.
  induction d as [|[name w] t IH]; intros H acc; [exists acc; reflexivity|].
  cbn [forallb snd] in H. apply andb_true_iff in H. destruct H as [Hw Ht].
  apply decodes_returns in Hw. destruct Hw as [x Hx].
  cbn [for_items_outcome]. unfold bind_outcome. rewrite Hx. apply IH. exact Ht.
Qed.

Lemma map_list_output_decodes (depth : Z) (l : list pyval) :
  Forall output_decodes l ->
  forallb timestamps_valid l = true ->
  forall hs ws hs',
    map_list (fun a hs => serialize_value a hs depth) l hs = (Return ws, hs') ->
    forallb decodes ws = true.
Proof.
  induction 1 as [|a r Ha _ IH]; intros Hv hs ws hs' Hrun;
    cbn [map_list] in Hrun; unfold bind, ret in Hrun.
  - inversion Hrun; subst. reflexivity.
  - cbn [forallb] in Hv. apply andb_true_iff in Hv. destruct Hv as [Hva Hvr].
    destruct (serialize_value a hs depth) as [[w|e] hs1] eqn:Ea; [|discriminate].
    destruct (map_list _ r hs1) as [[ws'|e] hs2] eqn:Er; [|discriminate].
    inversion Hrun; subst. cbn [forallb].
    rewrite (Ha _ _ _ _ Hva Ea), (IH Hvr _ _ _ Er). reflexivity.
Qed.

Lemma for_items_output_decodes (depth : Z) (d : items) :
  Forall (fun p => output_decodes (snd p)) d ->
  forallb (fun p => timestamps_valid (snd p)) d = true ->
  forall acc hs r hs',
    forallb (fun p => decodes (snd p)) acc = true ->
    for_items (fun x hs => serialize_value x hs depth) d acc hs
    = (Return r, hs') ->
    forallb (fun p => decodes (snd p)) r = true.
Proof.
  induction 1 as [|[name x] t Hx _ IH]; intros Hv acc hs r hs' Hacc Hrun;
    cbn [for_items] in Hrun; unfold bind, ret in Hrun.
  - inversion Hrun; subst. exact Hacc.
  - cbn [forallb snd] in Hv. apply andb_true_iff in Hv. destruct Hv as [Hvx Hvt].
    cbn [snd] in Hx.
    destruct (serialize_value x hs depth) as [[w|e] hs1] eqn:Ex; [|discriminate].
    apply (IH Hvt _ _ _ _
              (forallb_dict_set decodes acc name w Hacc (Hx _ _ _ _ Hvx Ex))
              Hrun).
Qed.

Lemma serialize_value_output_decodes (v : pyval) : output_decodes v.
Proof.
  induction v as [| b | z | f | s | dt | l IH | d IH | j | i]
    using pyval_nested_ind; intros hs depth w hs' Hv Hrun;
    cbn [serialize_value] in Hrun; unfold raise, ret, bind in Hrun;
    try (destruct (100 <? depth); [discriminate|]);
    try solve [ inversion Hrun; reflexivity ].
  - destruct f as [sg | sg | | sg m e]; cbn in Hrun;
      try solve [ inversion Hrun; reflexivity ];
      destruct sg; inversion Hrun; reflexivity.
  - assert (Ew : w = dict1 "d" (PStr (isoformat dt ++ "Z"))) by congruence.
    rewrite Ew. cbn [timestamps_valid] in Hv. unfold decodes.
    rewrite parse_value_date_tag, drop_last_append_char.
    rewrite fromisoformat_isoformat by assumption. reflexivity.
  - destruct (map_list _ l hs) as [[ws|e] hs1] eqn:El; [|discriminate].
    inversion Hrun; subst w hs'. cbn [timestamps_valid] in Hv.
    pose proof (map_list_output_decodes _ l IH Hv _ _ _ El) as Hws.
    destruct (map_list_outcome_decodes ws Hws) as [r Hr].
    apply decodes_returns. exists (PList r). unfold dict1.
    rewrite (parse_value_array [("a", PList ws)] ws eq_refl eq_refl), Hr.
    reflexivity.
  - destruct (for_items _ d [] hs) as [[r|e] hs1] eqn:Ed; [|discriminate].
    inversion Hrun; subst w hs'. cbn [timestamps_valid] in Hv.
    pose proof (for_items_output_decodes _ d IH Hv [] _ _ _ eq_refl Ed) as Hr.
    destruct (for_items_outcome_decodes r Hr []) as [r' Hr'].
    apply decodes_returns. exists (PDict r').
    cbn. unfold bind_outcome.
    change (for_items_outcome _ r []) with (for_items_outcome parse_value r []).
    rewrite Hr'. reflexivity.
Qed.

(** X15. parse_value never raises on what serialize_value returned: for a
    value with valid timestamps, references or not, encoded at a depth that
    is not negative, decoding the wire value returns. *)
Theorem decoder_returns_on_encoder_output :
  forall (v : pyval) (hs : list Channel) (depth : Z) (w : pyval)
         (hs' : list Channel),
    0 <= depth ->
    timestamps_valid v = true ->
    serialize_value v hs depth = (Return w, hs') ->
    exists x, parse_value w = Return x /\ parse_result w = Return x.
Proof.
  intros v hs depth w hs' _ Hv Hrun.
  pose proof (serialize_value_output_decodes v hs depth w hs' Hv Hrun) as H.
  apply decodes_returns in H. destruct H as [x Hx].
  exists x. split; exact Hx.
Qed.

Lemma decoder_returns_on_encoder_output_witness :
  exists x,
    parse_value
      (dict1 "a" (PList [dict1 "h" (PInt 0);
                         dict1 "d" (PStr "2021-02-28T23:59:59Z");
                         dict1 "v" (PStr "NaN")]))
    = Return x
    /\ parse_result
         (dict1 "a" (PList [dict1 "h" (PInt 0);
                            dict1 "d" (PStr "2021-02-28T23:59:59Z");
                            dict1 "v" (PStr "NaN")]))
       = Return x.
Proof.
  apply (decoder_returns_on_encoder_output
           (PList [PHandle (mkJSHandle (mkChannel "handle@A") "A");
                   PDatetime (mkDatetime 2021 2 28 23 59 59 0 None);
                   PFloat nan])
           [] 0 _ [mkChannel "handle@A"]).
  - lia.
  - reflexivity.
  - reflexivity.
Defined.

(** ** evaluate on any argument *)

(** X12. When the argument encodes, references or not, evaluate sends one
    message, evaluateExpression on the handle's own channel, carrying the
    expression, the envelope of the argument with its handle list, and an
    isFunction flag that is set only for an expression that is a function
    body evaluated without force_expr; what it returns or raises is the
    decoding of the answer, or the exception the channel raised.
    evaluateHandle sends evaluateExpressionHandle with the same parameters
    and passes the answer to from_channel.  If the argument holds no
    reference and the peer answers with the wire value it was sent, the
    argument comes back as itself, an unknown object as None and a zero as
    -0.0. *)
Theorem evaluate_sends_and_decodes :
  forall (is_function_body : string -> bool)
         (send : Channel -> string -> Handle.params -> outcome pyval)
         (from_channel : pyval -> outcome JSHandle)
         (self : JSHandle) (expression : string) (arg : pyval)
         (force_expr : bool) (a : argument),
    serialize_argument arg = Return a ->
    Handle.evaluate is_function_body send self expression arg force_expr
    = match send (_channel self) "evaluateExpression"
              (Handle.EvaluateParams expression
                 (is_function_body expression && negb force_expr) a)
      with
      | Return r => parse_result r
      | Raise e => Raise e
      end
    /\ Handle.evaluateHandle is_function_body send from_channel self expression
         arg force_expr
       = match send (_channel self) "evaluateExpressionHandle"
                 (Handle.EvaluateParams expression
                    (is_function_body expression && negb force_expr) a)
         with
         | Return r => from_channel r
         | Raise e => Raise e
         end
    /\ (self_contained arg = true ->
        send (_channel self) "evaluateExpression"
          (Handle.EvaluateParams expression
             (is_function_body expression && negb force_expr) a)
        = Return (value a) ->
        Handle.evaluate is_function_body send self expression arg force_expr
        = Return (received arg)).
Proof.
  intros ifb send from_channel self expression arg force_expr a Ha.
  assert (Eflag : negb (if negb (ifb expression) then true else force_expr)
                  = ifb expression && negb force_expr)
    by (destruct (ifb expression), force_expr; reflexivity).
  assert (Eev : Handle.evaluate ifb send self expression arg force_expr
                = match send (_channel self) "evaluateExpression"
                          (Handle.EvaluateParams expression
                             (ifb expression && negb force_expr) a)
                  with
                  | Return r => parse_result r
                  | Raise e => Raise e
                  end).
  { unfold Handle.evaluate. cbv zeta. rewrite Ha, Eflag. reflexivity. }
  split; [exact Eev|]. split.
  - unfold Handle.evaluateHandle. cbv zeta. rewrite Ha, Eflag. reflexivity.
  - intros Hs Hecho. rewrite Eev, Hecho.
    unfold serialize_argument in Ha.
    assert (Hh : is_handle arg = false)
      by (destruct arg; try reflexivity; discriminate Hs).
    destruct (Z.le_gt_cases (0 + Z.of_nat (reach arg)) 101) as [Hle|Hgt].
    + destruct (serialize_value_received arg [] 0 Hs Hle) as [w [Ew Ev]].
      rewrite Ew in Ha. inversion Ha; subst a. exact Ev.
    + destruct (serialize_value_beyond_reach arg [] 0 Hh) as [hs2 E2]; [lia|].
      rewrite E2 in Ha. discriminate Ha.
Qed.

Lemma evaluate_sends_and_decodes_witness :
  let self := mkJSHandle (mkChannel "handle@1") "window" in
  let ref := mkJSHandle (mkChannel "handle@2") "document" in
  let send := fun (c : Channel) (m : string) (p : Handle.params) =>
                match p with
                | Handle.EvaluateParams e true a =>
                    Return (PInt (Z.of_nat (List.length (handles a))))
                | _ => Raise TypeError
                end in
  Handle.evaluate (fun _ => true) send self "x => x"
    (PList [PHandle ref; PInt 1]) false
  = Return (PInt 1).
Proof.
  intros self ref send.
  exact (eq_trans
           (proj1 (evaluate_sends_and_decodes (fun _ => true) send
                     (fun _ => Raise TypeError) self "x => x"
                     (PList [PHandle ref; PInt 1]) false
                     (mkArgument
                        (dict1 "a" (PList [dict1 "h" (PInt 0); PInt 1]))
                        [_channel ref])
                     eq_refl))
           eq_refl).
Defined.
